(** * Two-dimensional cross-correlation ([corr2d]) and the [Conv2D] layer

    A shallow embedding of the code cells of
    [chapter_convolutional-neural-networks/conv-layer.ipynb] (MXNet tab):

    - [corr2d(X, K)], the nested-loop cross-correlation;
    - [Conv2D.forward], which calls [corr2d] and adds the bias;
    - the notebook cells that build the 3x3 example and the 6x8
      black-and-white "image" and run [corr2d] on them.

    Arrays are Python objects: variables hold references, [np.zeros]
    allocates, [Y[i, j] = v] mutates in place.  The embedding therefore
    threads an object store through a small state-and-exception monad, and
    the array primitives of the framework ([np.zeros], slicing, [*], [+],
    [.sum()], item assignment) are modelled with NumPy's semantics,
    including the exceptions they raise.

    Modelling choices:
    - elements are kept abstract ([Scalar]): the properties of [corr2d]
      hold for every element type and every addition and multiplication,
      with no algebraic law assumed; two instances are given,
      single-precision floating point ([float32], the framework's default
      element type) and the integers, on which the notebook's examples
      are run (their floating-point arithmetic is exact); what depends on
      arithmetic being exact is proved on [float32] arrays that hold
      integers small enough for no sum or product to be rounded;
    - [A.sum()] adds the elements to one accumulator that starts at 0,
      in row-major order, last element first; the framework does not fix
      the order, and in floating point another order can round
      differently;
    - a slice [X[i:i + h, j:j + w]] is only ever read, so it is modelled
      by its value; the product [... * K] is a temporary that does not
      outlive the statement and is not put in the store. *)

From Stdlib Require Import ZArith SpecFloat.
From stdpp Require Import base decidable option list gmap.

(** ** Scalars *)

(** The element type of the arrays.  The code only ever uses [0] (from
    [np.zeros]), [1] (from [np.ones]), [+] and [*] on elements. *)
Class Scalar (F : Type) := {
  f0 : F;
  f1 : F;
  fadd : F → F → F;
  fmul : F → F → F
}.

#[export] Instance Z_scalar : Scalar Z :=
  {| f0 := 0%Z; f1 := 1%Z; fadd := Z.add; fmul := Z.mul |}.

(** ** Exceptions and results *)

Inductive exn :=
| NegativeDimensions   (* ValueError: negative dimensions are not allowed *)
| BroadcastMismatch    (* ValueError: operands could not be broadcast together *)
| IndexOutOfBounds     (* IndexError *)
| NotTwoDimensional    (* ValueError on [h, w = K.shape], IndexError on [X.shape[1]] *)
| DanglingReference.   (* a reference to no object; unreachable from Python code *)

Inductive result (A : Type) :=
| Ok (a : A)
| Raise (e : exn).
Arguments Ok {A} a.
Arguments Raise {A} e.

Definition result_map {A B} (f : A → B) (r : result A) : result B :=
  match r with Ok a => Ok (f a) | Raise e => Raise e end.

(** ** Arrays as values *)

Section Arrays.
Context {F : Type} {SF : Scalar F}.

(** A two-dimensional array: its [shape] attribute and its rows.  The shape
    is kept apart from the rows, as in the framework: an array of shape
    [(0, 5)] and one of shape [(0, 7)] both have no rows. *)
Record ndarray := NDArray {
  shape : nat * nat;
  rows : list (list F)
}.

(** The rows agree with the shape. *)
Definition wf (a : ndarray) : bool :=
  (length (rows a) =? (shape a).1) &&
  forallb (λ r, length r =? (shape a).2) (rows a).

(** [a[i][j]], when in range. *)
Definition lookup2 (a : ndarray) (i j : nat) : option F :=
  rows a !! i ≫= (λ r, r !! j).

(** [a[i, j]] as an expression: raises [IndexError] out of range. *)
Definition getitem (a : ndarray) (i j : nat) : result F :=
  match lookup2 a i j with
  | Some v => Ok v
  | None => Raise IndexOutOfBounds
  end.

(** The element at [(i, j)], [0] where there is none. *)
Definition cell (a : ndarray) (i j : nat) : F := default f0 (lookup2 a i j).

(** [a] is a grid of shape [(h, w)]. *)
Definition has_shape (a : ndarray) (shp : nat * nat) : Prop :=
  wf a = true ∧ shape a = shp.

(** The array of shape [(r, c)] whose element at [(i, j)] is [f i j]. *)
Definition tabulate (r c : nat) (f : nat → nat → F) : ndarray :=
  {| shape := (r, c);
     rows := (λ i, (λ j, f i j) <$> seq 0 c) <$> seq 0 r |}.

(** [np.zeros((r, c))] and [np.ones((r, c))]: negative dimensions raise. *)
Definition full (shp : Z * Z) (v : F) : result ndarray :=
  if ((shp.1 <? 0) || (shp.2 <? 0))%Z then Raise NegativeDimensions
  else Ok (tabulate (Z.to_nat shp.1) (Z.to_nat shp.2) (λ _ _, v)).

Definition zeros (shp : Z * Z) : result ndarray := full shp f0.
Definition ones (shp : Z * Z) : result ndarray := full shp f1.

(** [l[a:b]] for [0 <= a], [0 <= b]: Python clamps the bounds to the
    length and gives the empty list when [b <= a]. *)
Definition slice_list {A} (l : list A) (a b : nat) : list A :=
  take (b - a) (drop a l).

(** [X[i0:i1, j0:j1]]. *)
Definition slice (a : ndarray) (i0 i1 j0 j1 : nat) : ndarray :=
  {| shape := ((i1 - i0) `min` ((shape a).1 - i0),
               (j1 - j0) `min` ((shape a).2 - j0));
     rows := (λ r, slice_list r j0 j1) <$> slice_list (rows a) i0 i1 |}.

(** Broadcasting of one axis: equal lengths, or one of them is [1]. *)
Definition broadcast_dim (a b : nat) : option nat :=
  if a =? b then Some a
  else if a =? 1 then Some b
  else if b =? 1 then Some a
  else None.

(** The index read on an axis of length [a] for output index [p]. *)
Definition bidx (a p : nat) : nat := if a =? 1 then 0 else p.

(** Elementwise binary operation with broadcasting ([A * B], [A + B]). *)
Definition broadcast2 (op : F → F → F) (a b : ndarray) : result ndarray :=
  match broadcast_dim (shape a).1 (shape b).1,
        broadcast_dim (shape a).2 (shape b).2 with
  | Some r, Some c =>
      Ok (tabulate r c (λ i j,
            op (cell a (bidx (shape a).1 i) (bidx (shape a).2 j))
               (cell b (bidx (shape b).1 i) (bidx (shape b).2 j))))
  | _, _ => Raise BroadcastMismatch
  end.

Definition mul : ndarray → ndarray → result ndarray := broadcast2 fmul.
Definition add : ndarray → ndarray → result ndarray := broadcast2 fadd.

(** [A.sum()]: the sum of all elements. *)
Definition sum_list (l : list F) : F := foldr fadd f0 l.
Definition sum (a : ndarray) : F := sum_list (concat (rows a)).

(** [Y[i, j] = v] on the value of [Y]: raises [IndexError] out of range. *)
Definition setitem (a : ndarray) (i j : nat) (v : F) : result ndarray :=
  if (i <? (shape a).1) && (j <? (shape a).2)
  then Ok {| shape := shape a; rows := alter (λ r, <[j := v]> r) i (rows a) |}
  else Raise IndexOutOfBounds.

(** [X[:, j0:j1] = v]: every row, columns [j0 .. min j1 width - 1]. *)
Definition setcols (a : ndarray) (j0 j1 : nat) (v : F) : ndarray :=
  {| shape := shape a;
     rows := (λ r, take j0 r ++ replicate (length (slice_list r j0 j1)) v
                   ++ drop (j0 + length (slice_list r j0 j1)) r) <$> rows a |}.

(** [(X[i:i + h, j:j + w] * K).sum()] on the values of [X] and [K]. *)
Definition window (X K : ndarray) (i j h w : nat) : result F :=
  result_map sum (mul (slice X i (i + h) j (j + w)) K).

End Arrays.
Arguments ndarray F : clear implicits.

(** ** The object store and the monad of commands *)

(** References to array objects. *)
Definition loc := positive.

(** An array object: two-dimensional, or one-dimensional (the bias of
    [Conv2D] has shape [(1,)]). *)
Inductive obj (F : Type) :=
| Grid (a : ndarray F)
| Vec (v : list F).
Arguments Grid {F} a.
Arguments Vec {F} v.

(** The store: the objects reachable through references. *)
Abbreviation heap F := (gmap loc (obj F)).

(** A command: runs on a store, returns a value and the new store, or
    raises. *)
Definition M (F A : Type) : Type := heap F → result (A * heap F).

Definition ret {F A} (a : A) : M F A := λ s, Ok (a, s).

Definition bind {F A B} (m : M F A) (k : A → M F B) : M F B :=
  λ s, match m s with
       | Ok (a, s') => k a s'
       | Raise e => Raise e
       end.

Definition lift {F A} (r : result A) : M F A :=
  λ s, match r with Ok a => Ok (a, s) | Raise e => Raise e end.

Declare Scope cmd_scope.
Delimit Scope cmd_scope with cmd.
Notation "x <- m ;; k" := (bind m (λ x, k))
  (at level 100, m at next level, right associativity) : cmd_scope.
Notation "m ;; k" := (bind m (λ _, k))
  (at level 100, right associativity) : cmd_scope.
Open Scope cmd_scope.

Section Commands.
Context {F : Type} {SF : Scalar F}.

(** A new object at an unused reference. *)
Definition alloc (o : obj F) : M F loc :=
  λ s, let l := fresh (dom s) in Ok (l, <[l := o]> s).

(** The two-dimensional array a reference points to. *)
Definition read (l : loc) : M F (ndarray F) :=
  λ s, match s !! l with
       | Some (Grid a) => Ok (a, s)
       | Some (Vec _) => Raise NotTwoDimensional
       | None => Raise DanglingReference
       end.

Definition read_obj (l : loc) : M F (obj F) :=
  λ s, match s !! l with
       | Some o => Ok (o, s)
       | None => Raise DanglingReference
       end.

(** In-place update of the object at [l]. *)
Definition write (l : loc) (a : ndarray F) : M F unit :=
  λ s, Ok (tt, <[l := Grid a]> s).

(** [X.shape] for a two-dimensional [X]. *)
Definition get_shape (l : loc) : M F (nat * nat) :=
  a <- read l ;; ret (shape a).

(** [np.zeros(shp)], [np.ones(shp)]. *)
Definition np_zeros (shp : Z * Z) : M F loc :=
  a <- lift (zeros shp) ;; alloc (Grid a).

Definition np_ones (shp : Z * Z) : M F loc :=
  a <- lift (ones shp) ;; alloc (Grid a).

(** [np.array] is only used on rectangular literals. *)
Definition np_array (l : list (list F)) : M F loc :=
  alloc (Grid {| shape := (length l, length (hd [] l)); rows := l |}).

(** [Y[i, j] = v]. *)
Definition np_setitem (Y : loc) (i j : nat) (v : F) : M F unit :=
  a <- read Y ;;
  a' <- lift (setitem a i j v) ;;
  write Y a'.

(** [X[:, j0:j1] = v]. *)
Definition np_setcols (X : loc) (j0 j1 : nat) (v : F) : M F unit :=
  a <- read X ;; write X (setcols a j0 j1 v).

(** [for i in l: body(i)]. *)
Fixpoint for_each (l : list nat) (body : nat → M F unit) : M F unit :=
  match l with
  | [] => ret tt
  | i :: l' => body i ;; for_each l' body
  end.

(** [for i in range(n): body(i)]. *)
Definition for_range (n : nat) (body : nat → M F unit) : M F unit :=
  for_each (seq 0 n) body.

(** [(X[i:i + h, j:j + w] * K).sum()]: reads [X] and [K]; the slice and
    the product are temporaries that do not outlive the expression. *)
Definition window_sum (X K : loc) (i j h w : nat) : M F F :=
  x <- read X ;;
  k <- read K ;;
  lift (window x k i j h w).

(** [[
def corr2d(X, K):
    h, w = K.shape
    Y = np.zeros((X.shape[0] - h + 1, X.shape[1] - w + 1))
    for i in range(Y.shape[0]):
        for j in range(Y.shape[1]):
            Y[i, j] = (X[i:i + h, j:j + w] * K).sum()
    return Y
]] *)
Definition corr2d (X K : loc) : M F loc :=
  kshape <- get_shape K ;;
  let h := kshape.1 in
  let w := kshape.2 in
  xshape <- get_shape X ;;
  Y <- np_zeros (Z.of_nat xshape.1 - Z.of_nat h + 1,
                 Z.of_nat xshape.2 - Z.of_nat w + 1)%Z ;;
  yshape <- get_shape Y ;;
  for_range yshape.1 (λ i,
    yshape' <- get_shape Y ;;
    for_range yshape'.2 (λ j,
      v <- window_sum X K i j h w ;;
      np_setitem Y i j v)) ;;
  ret Y.

(** A one-dimensional array counts as a single row when it meets a
    two-dimensional one (NumPy prepends axes of length [1]). *)
Definition as_grid (o : obj F) : ndarray F :=
  match o with
  | Grid a => a
  | Vec v => {| shape := (1, length v); rows := [v] |}
  end.

(** [A + B] on objects. *)
Definition obj_add (a b : obj F) : result (obj F) :=
  match a, b with
  | Vec _, Vec _ =>
      result_map (λ c, Vec (hd [] (rows c))) (add (as_grid a) (as_grid b))
  | _, _ => result_map Grid (add (as_grid a) (as_grid b))
  end.

Definition np_add (A B : loc) : M F loc :=
  a <- read_obj A ;;
  b <- read_obj B ;;
  c <- lift (obj_add a b) ;;
  alloc c.

(** [[
class Conv2D(nn.Block):
    def __init__(self, kernel_size, **kwargs):
        super().__init__(...)
        self.weight = self.params.get('weight', shape=kernel_size)
        self.bias = self.params.get('bias', shape=(1,))

    def forward(self, x):
        return corr2d(x, self.weight.data()) + self.bias.data()
]]
    The layer holds the arrays of its two parameters. *)
Record Conv2D := {
  weight : loc;
  bias : loc
}.

Definition forward (self : Conv2D) (x : loc) : M F loc :=
  Y <- corr2d x (weight self) ;;
  np_add Y (bias self).

(** What [__init__] and the initialisation of the parameters guarantee:
    [weight] is a two-dimensional array of shape [kernel_size], [bias] a
    one-dimensional array of shape [(1,)]. *)
Definition Conv2D_params (self : Conv2D) (kernel_size : nat * nat)
    (W : ndarray F) (b : F) (s : heap F) : Prop :=
  s !! weight self = Some (Grid W) ∧ has_shape W kernel_size ∧
  s !! bias self = Some (Vec [b]).

(** Modelled from the spec: [d2l.transpose] lives in the [d2l] package,
    which is not among the sources; the spec calls it [transpose(X)].  The
    result is a new array object of shape [(W, H)] with
    [T[j][i] = X[i][j]]. *)
Definition transpose_val (a : ndarray F) : ndarray F :=
  tabulate (shape a).2 (shape a).1 (λ j i, cell a i j).

Definition transpose (X : loc) : M F loc :=
  a <- read X ;; alloc (Grid (transpose_val a)).



(** What a command returns, with the store dropped, and the array a
    returned reference points to. *)
Definition returns (m : M F loc) (s : heap F) (Y : ndarray F) : Prop :=
  ∃ l s', m s = Ok (l, s') ∧ s' !! l = Some (Grid Y).

Definition run_array (m : M F loc) : result (ndarray F) :=
  match m ∅ with
  | Ok (l, s') =>
      match s' !! l with
      | Some (Grid a) => Ok a
      | Some (Vec _) => Raise NotTwoDimensional
      | None => Raise DanglingReference
      end
  | Raise e => Raise e
  end.

End Commands.

(** ** The notebook's cells *)

(** [[
X = np.array([[0.0, 1.0, 2.0], [3.0, 4.0, 5.0], [6.0, 7.0, 8.0]])
K = np.array([[0.0, 1.0], [2.0, 3.0]])
corr2d(X, K)
]] *)
Definition cell_validate : M Z loc :=
  X <- np_array [[0; 1; 2]; [3; 4; 5]; [6; 7; 8]]%Z ;;
  K <- np_array [[0; 1]; [2; 3]]%Z ;;
  corr2d X K.

(** [[
X = np.ones((6, 8))
X[:, 2:6] = 0
]] *)
Definition cell_image : M Z loc :=
  X <- np_ones (6, 8)%Z ;;
  np_setcols X 2 6 0%Z ;;
  ret X.

(** [[
K = np.array([[1.0, -1.0]])
Y = corr2d(X, K)
]] *)
Definition cell_edges : M Z loc :=
  X <- cell_image ;;
  K <- np_array [[1; -1]]%Z ;;
  corr2d X K.

(** [[
corr2d(d2l.transpose(X), K)
]] *)
Definition cell_transposed : M Z loc :=
  X <- cell_image ;;
  K <- np_array [[1; -1]]%Z ;;
  Xt <- transpose X ;;
  corr2d Xt K.

(** A store for the examples below: the arrays of the first example at
    references [ref_X] and [ref_K], a second 2x2 kernel, a bias of shape [(1,)], a
    kernel as large as the input and one that is larger. *)
Definition X3 : ndarray Z :=
  {| shape := (3, 3); rows := [[0; 1; 2]; [3; 4; 5]; [6; 7; 8]]%Z |}.
Definition K2 : ndarray Z :=
  {| shape := (2, 2); rows := [[0; 1]; [2; 3]]%Z |}.
Definition K2' : ndarray Z :=
  {| shape := (2, 2); rows := [[1; -1]; [-2; 4]]%Z |}.
Definition K3 : ndarray Z :=
  {| shape := (3, 3); rows := [[1; 0; -1]; [2; 0; -2]; [1; 0; -1]]%Z |}.
Definition K4 : ndarray Z :=
  {| shape := (4, 2); rows := [[1; 1]; [1; 1]; [1; 1]; [1; 1]]%Z |}.

Definition ref_X : loc := 1%positive.
Definition ref_K : loc := 2%positive.
Definition ref_K' : loc := 3%positive.
Definition ref_b : loc := 4%positive.
Definition ref_K3 : loc := 5%positive.
Definition ref_K4 : loc := 6%positive.

Definition example_store : heap Z :=
  <[ref_X := Grid X3]> (<[ref_K := Grid K2]> (<[ref_K' := Grid K2']>
  (<[ref_b := Vec [5%Z]]> (<[ref_K3 := Grid K3]> (<[ref_K4 := Grid K4]> ∅))))).

Definition example_layer : Conv2D := {| weight := ref_K; bias := ref_b |}.

(** ** Compositions of [corr2d] *)

Section Compositions.
Context {F : Type} {SF : Scalar F}.

(** [corr2d(corr2d(X, K1), K2)]: a second layer on the output of the
    first, as in the notebook's discussion of the receptive field. *)
Definition corr2d_twice (X K1 K2 : loc) : M F loc :=
  Y <- corr2d X K1 ;; corr2d Y K2.

End Compositions.

(** The notebook's edge detector [K = np.array([[1.0, -1.0]])]. *)
Definition edge_kernel : ndarray Z :=
  {| shape := (1, 2); rows := [[1; -1]]%Z |}.

(** More example data: a second 3x3 input that agrees with [X3] on its
    top-left 2x2 window, the crop [X3[1:, 1:]], the edge detector and a
    3x2 kernel. *)
Definition X3' : ndarray Z :=
  {| shape := (3, 3); rows := [[0; 1; 9]; [3; 4; 9]; [9; 9; 9]]%Z |}.
Definition K32 : ndarray Z :=
  {| shape := (3, 2); rows := [[1; 2]; [3; 4]; [5; 6]]%Z |}.
Definition K21 : ndarray Z :=
  {| shape := (2, 1); rows := [[1]; [-1]]%Z |}.

Definition ref_X' : loc := 7%positive.
Definition ref_crop : loc := 8%positive.
Definition ref_edge : loc := 9%positive.
Definition ref_K32 : loc := 10%positive.
Definition ref_K21 : loc := 11%positive.

Definition example_store2 : heap Z :=
  <[ref_X' := Grid X3']> (<[ref_crop := Grid (slice X3 1 3 1 3)]>
  (<[ref_edge := Grid edge_kernel]> (<[ref_K32 := Grid K32]>
  (<[ref_K21 := Grid K21]> example_store)))).

(** ** Closed forms and the contract's formula *)

Section SpecDefs.
Context {F : Type} {SF : Scalar F}.
Implicit Types (X K : ndarray F).

(** The sum the code forms for one output cell: the elementwise product
    of the window at [(i, j)] with the kernel, summed. *)
Definition window_value X K (i j : nat) : F :=
  sum (tabulate (shape K).1 (shape K).2
         (λ p q, fmul (cell X (i + p) (j + q)) (cell K p q))).

(** The output array when the kernel fits. *)
Definition corr2d_value X K : ndarray F :=
  tabulate ((shape X).1 - (shape K).1 + 1) ((shape X).2 - (shape K).2 + 1)
           (window_value X K).

(** The contract's right-hand side,
    [Σ_{p=0..kh-1} Σ_{q=0..kw-1} X[i+p][j+q] * K[p][q]]: the kh·kw
    products, [p] in the outer and [q] in the inner position, added to one
    accumulator that starts at 0 (the last product first, as [sum] does). *)
Definition cross_correlation (X K : ndarray F) (kh kw i j : nat) : F :=
  foldr (λ p acc,
           foldr (λ q acc', fadd (fmul (cell X (i + p) (j + q)) (cell K p q)) acc')
                 acc (seq 0 kw))
        f0 (seq 0 kh).

(** The grid [a] with [b] added to every cell. *)
Definition add_to_every_cell (a : ndarray F) (b : F) : ndarray F :=
  {| shape := shape a; rows := (λ r : list F, (λ y, fadd y b) <$> r) <$> rows a |}.

End SpecDefs.

(** ** Single-precision elements *)

(** The arrays of the notebook hold IEEE 754 binary32 numbers, the
    framework's default element type: 24 bits of precision, exponents up
    to 128, round to nearest even, overflow to infinity, NaN. *)
Definition float32 : Type := spec_float.

Definition f32_add (a b : float32) : float32 := SFadd 24 128 a b.
Definition f32_mul (a b : float32) : float32 := SFmul 24 128 a b.

(** The binary32 number nearest to an integer, as a literal such as
    [3.0] or [1e38] is stored. *)
Definition f32_of_Z (z : Z) : float32 := binary_normalize 24 128 z 0 false.

#[export] Instance f32_scalar : Scalar float32 :=
  {| f0 := S754_zero false; f1 := f32_of_Z 1;
     fadd := f32_add; fmul := f32_mul |}.


(** Equality of representations. *)
Definition f32_eqb (a b : float32) : bool :=
  match a, b with
  | S754_zero s, S754_zero s' => Bool.eqb s s'
  | S754_infinity s, S754_infinity s' => Bool.eqb s s'
  | S754_nan, S754_nan => true
  | S754_finite s m e, S754_finite s' m' e' =>
      Bool.eqb s s' && Pos.eqb m m' && Z.eqb e e'
  | _, _ => false
  end.

(** [f] holds the integer [z]: it is the binary32 number of [z], or [z]
    is 0 and [f] is the negative zero that a product with a zero factor
    can be. *)
Definition f32_holds (f : float32) (z : Z) : Prop :=
  f = f32_of_Z z ∨ (z = 0%Z ∧ f = S754_zero true).

Definition f32_holdsb (f : float32) (z : Z) : bool :=
  f32_eqb f (f32_of_Z z) || ((z =? 0)%Z && f32_eqb f (S754_zero true)).

(** The integers from [-B] to [B], each with its binary32 number. *)
Definition zrange (B : Z) : list (Z * float32) :=
  (λ n, let z := (Z.of_nat n - B)%Z in (z, f32_of_Z z)) <$>
  seq 0 (Z.to_nat (2 * B + 1)).

(** Sums and products of integers that stay within [B] are computed
    without rounding: checked on every pair. *)
Definition check_add32 (B : Z) : bool :=
  forallb (λ y,
    f32_eqb (f32_add (S754_zero true) y.2) y.2 &&
    forallb (λ x,
      if (Z.abs (x.1 + y.1) <=? B)%Z
      then f32_eqb (f32_add x.2 y.2) (f32_of_Z (x.1 + y.1))
      else true) (zrange B)) (zrange B).

Definition check_mul32 (B : Z) : bool :=
  forallb (λ x,
    forallb (λ y,
      if (Z.abs (x.1 * y.1) <=? B)%Z
      then f32_holdsb (f32_mul x.2 y.2) (x.1 * y.1)
      else true) (zrange B)) (zrange B).

(** The range on which the checks are run: 8-bit intensities. *)
Definition exact_bound : Z := 255.

(** ** Integer-valued grids *)

(** The grid [a] with [g] applied to every cell. *)
Definition map_grid {A B : Type} (g : A → B) (a : ndarray A) : ndarray B :=
  {| shape := shape a; rows := (λ r : list A, g <$> r) <$> rows a |}.

Definition map_obj {A B : Type} (g : A → B) (o : obj A) : obj B :=
  match o with
  | Grid a => Grid (map_grid g a)
  | Vec v => Vec (g <$> v)
  end.

Definition abs_grid (a : ndarray Z) : ndarray Z := map_grid Z.abs a.



(** Every cell of [a] is between [-B] and [B]. *)
Definition within (B : Z) (a : ndarray Z) : bool :=
  forallb (λ r, forallb (λ x, (Z.abs x <=? B)%Z) r) (rows a).

(** The indices of a table of shape (h, w), row by row. *)
Definition index_pairs (h w : nat) : list (nat * nat) :=
  concat ((λ p, (λ q, (p, q)) <$> seq 0 w) <$> seq 0 h).

(** The store of the examples with binary32 elements. *)
Definition example_store32 : heap float32 := map_obj f32_of_Z <$> example_store.



(** [corr2d] on [X = [[16777216, 1]]] and [K = [[1, 1]]]. *)
Definition rounding_cell : M float32 loc :=
  X <- np_array [[f32_of_Z 16777216; f32_of_Z 1]] ;;
  K <- np_array [[f32_of_Z 1; f32_of_Z 1]] ;;
  corr2d X K.

(** ** Properties of the array primitives *)

Section ArrayFacts.
Context {F : Type} {SF : Scalar F}.
Implicit Types (a b X K : ndarray F) (f g : nat → nat → F).

Lemma wf_spec a :
  wf a = true ↔
  length (rows a) = (shape a).1 ∧
  ∀ i r, rows a !! i = Some r → length r = (shape a).2.
Proof.
  unfold wf. rewrite andb_true_iff, Nat.eqb_eq, forallb_forall.
  split; intros [Hl Hr]; split; try done.
  - intros i r Hi. apply Nat.eqb_eq, Hr.
    apply list_elem_of_In, list_elem_of_lookup. eauto.
  - intros r Hin. apply list_elem_of_In, list_elem_of_lookup in Hin as [i Hi].
    apply Nat.eqb_eq. eauto.
Qed.

Lemma lookup2_tabulate r c f i j :
  i < r → j < c → lookup2 (tabulate r c f) i j = Some (f i j).
Proof.
  intros Hi Hj. unfold lookup2, tabulate; simpl.
  rewrite list_lookup_fmap, lookup_seq_lt by done. simpl.
  by rewrite list_lookup_fmap, lookup_seq_lt.
Qed.

Lemma lookup2_tabulate_None r c f i j :
  r ≤ i ∨ c ≤ j → lookup2 (tabulate r c f) i j = None.
Proof.
  intros Hij. unfold lookup2, tabulate; simpl.
  rewrite list_lookup_fmap.
  destruct (decide (i < r)) as [Hi|Hi].
  - rewrite lookup_seq_lt by done. simpl.
    rewrite list_lookup_fmap, lookup_seq_ge; [done | lia].
  - rewrite lookup_seq_ge; [done | lia].
Qed.

Lemma wf_tabulate r c f : wf (tabulate r c f) = true.
Proof.
  apply wf_spec; simpl. split.
  - by rewrite length_fmap, length_seq.
  - intros i row. rewrite list_lookup_fmap.
    destruct (seq 0 r !! i); simpl; [|done].
    intros [= <-]. by rewrite length_fmap, length_seq.
Qed.

Lemma tabulate_ext r c f g :
  (∀ i j, i < r → j < c → f i j = g i j) → tabulate r c f = tabulate r c g.
Proof.
  intros Hfg. unfold tabulate. f_equal.
  apply list_eq; intros i. rewrite !list_lookup_fmap.
  destruct (seq 0 r !! i) as [i'|] eqn:Hi; simpl; [|done].
  apply lookup_seq in Hi as [-> Hi]. f_equal.
  apply list_eq; intros j. rewrite !list_lookup_fmap.
  destruct (seq 0 c !! j) as [j'|] eqn:Hj; simpl; [|done].
  apply lookup_seq in Hj as [-> Hj]. f_equal. by apply Hfg.
Qed.

(** A well-formed array is the table of its own elements. *)
Lemma tabulate_cell a :
  wf a = true → a = tabulate (shape a).1 (shape a).2 (cell a).
Proof.
  intros [Hl Hr]%wf_spec. destruct a as [[r c] rs]; simpl in *.
  unfold tabulate. f_equal. apply list_eq; intros i.
  rewrite list_lookup_fmap.
  destruct (rs !! i) as [row|] eqn:Hi.
  - assert (i < r) by (rewrite <- Hl; eapply lookup_lt_Some; eauto).
    rewrite lookup_seq_lt by done. simpl. f_equal.
    apply list_eq; intros j. rewrite list_lookup_fmap.
    destruct (row !! j) as [v|] eqn:Hj.
    + assert (j < c) by (rewrite <- (Hr i row Hi); eapply lookup_lt_Some; eauto).
      rewrite lookup_seq_lt by done. simpl.
      unfold cell, lookup2; simpl. by rewrite Hi; simpl; rewrite Hj.
    + apply lookup_ge_None in Hj. rewrite (Hr i row Hi) in Hj.
      rewrite lookup_seq_ge; [done | lia].
  - apply lookup_ge_None in Hi. rewrite lookup_seq_ge; [done | lia].
Qed.

(** Two well-formed arrays of one shape with the same elements are equal. *)
Lemma ndarray_ext a b :
  wf a = true → wf b = true → shape a = shape b →
  (∀ i j, i < (shape a).1 → j < (shape a).2 → lookup2 a i j = lookup2 b i j) →
  a = b.
Proof.
  intros Ha Hb Hs Hc.
  rewrite (tabulate_cell a Ha), (tabulate_cell b Hb), <- Hs.
  apply tabulate_ext. intros i j Hi Hj. unfold cell. by rewrite Hc.
Qed.

Lemma lookup2_lt a i j :
  wf a = true → i < (shape a).1 → j < (shape a).2 → is_Some (lookup2 a i j).
Proof.
  intros [Hl Hr]%wf_spec Hi Hj. unfold lookup2.
  destruct (lookup_lt_is_Some_2 (rows a) i) as [row Hrow]; [lia|].
  rewrite Hrow; simpl. apply lookup_lt_is_Some_2.
  by rewrite (Hr i row Hrow).
Qed.

(** *** Item assignment *)

Lemma setitem_shape a i j v a' : setitem a i j v = Ok a' → shape a' = shape a.
Proof. unfold setitem. case_match; [|done]. by intros [= <-]. Qed.

Lemma setitem_wf a i j v a' :
  setitem a i j v = Ok a' → wf a = true → wf a' = true.
Proof.
  unfold setitem. case_match; [|done]. intros [= <-].
  rewrite !wf_spec; simpl. intros [Hl Hr]. split.
  - by rewrite length_alter.
  - intros i' row. rewrite list_lookup_alter. case_decide as Hii.
    + subst i'. destruct (rows a !! i) as [r0|] eqn:Hi; simpl; [|done].
      intros [= <-]. rewrite length_insert. eauto.
    + eauto.
Qed.

Lemma setitem_lookup2 a i j v a' i' j' :
  setitem a i j v = Ok a' → wf a = true →
  lookup2 a' i' j' = if decide (i' = i ∧ j' = j) then Some v else lookup2 a i' j'.
Proof.
  unfold setitem. case_match eqn:Hb; [|done]. intros [= <-] [Hl Hr]%wf_spec.
  apply andb_true_iff in Hb as [Hi%Nat.ltb_lt Hj%Nat.ltb_lt].
  unfold lookup2; simpl. rewrite list_lookup_alter.
  destruct (decide (i = i')) as [<-|Hne].
  - destruct (lookup_lt_is_Some_2 (rows a) i) as [row Hrow]; [lia|].
    rewrite Hrow; simpl. rewrite list_lookup_insert.
    rewrite (Hr i row Hrow).
    destruct (decide (i = i ∧ j' = j)) as [[_ ->]|Hn].
    + by rewrite decide_True by lia.
    + rewrite decide_False; [done | intros [-> _]; tauto].
  - rewrite decide_False by (intros [? _]; congruence). done.
Qed.

Lemma setitem_ok a i j v :
  i < (shape a).1 → j < (shape a).2 → ∃ a', setitem a i j v = Ok a'.
Proof.
  intros Hi%Nat.ltb_lt Hj%Nat.ltb_lt. unfold setitem.
  rewrite Hi, Hj; simpl. eauto.
Qed.

(** *** Slices *)

Lemma slice_list_lookup {A} (l : list A) (m n p : nat) :
  p < n → slice_list l m (m + n) !! p = l !! (m + p).
Proof.
  intros Hp. unfold slice_list.
  replace (m + n - m) with n by lia.
  by rewrite lookup_take_lt, lookup_drop.
Qed.

Lemma slice_lookup2 X i j h w p q :
  p < h → q < w →
  lookup2 (slice X i (i + h) j (j + w)) p q = lookup2 X (i + p) (j + q).
Proof.
  intros Hp Hq. unfold lookup2, slice; simpl.
  rewrite list_lookup_fmap, slice_list_lookup by done.
  destruct (rows X !! (i + p)); simpl; [|done].
  by apply slice_list_lookup.
Qed.

Lemma slice_shape X i j h w :
  i + h ≤ (shape X).1 → j + w ≤ (shape X).2 →
  shape (slice X i (i + h) j (j + w)) = (h, w).
Proof. intros Hi Hj. unfold slice; simpl. f_equal; lia. Qed.

(** *** Broadcasting *)

Lemma broadcast_dim_same n : broadcast_dim n n = Some n.
Proof. unfold broadcast_dim. by rewrite Nat.eqb_refl. Qed.

Lemma bidx_lt n p : p < n → bidx n p = p.
Proof. unfold bidx. intros Hp. destruct (Nat.eqb_spec n 1); lia. Qed.

(** On operands of one shape the operation is elementwise. *)
Lemma broadcast2_same op a b r c :
  shape a = (r, c) → shape b = (r, c) →
  broadcast2 op a b = Ok (tabulate r c (λ i j, op (cell a i j) (cell b i j))).
Proof.
  intros Ha Hb. unfold broadcast2. rewrite Ha, Hb; simpl.
  rewrite !broadcast_dim_same. f_equal. apply tabulate_ext.
  intros i j Hi Hj. by rewrite !bidx_lt.
Qed.

(** The window at [(i, j)] when the kernel fits there. *)
Lemma window_fits X K i j h w :
  shape K = (h, w) → i + h ≤ (shape X).1 → j + w ≤ (shape X).2 →
  window X K i j h w =
  Ok (sum (tabulate h w (λ p q, fmul (cell X (i + p) (j + q)) (cell K p q)))).
Proof.
  intros HK Hi Hj. unfold window, mul.
  rewrite (broadcast2_same _ _ _ h w) by (by rewrite ?slice_shape). simpl.
  do 2 f_equal. apply tabulate_ext. intros p q Hp Hq.
  unfold cell. by rewrite slice_lookup2.
Qed.

End ArrayFacts.

(** ** Running commands *)

Section CommandFacts.
Context {F : Type} {SF : Scalar F}.
Implicit Types (s : heap F) (X K Y : ndarray F) (lx lk ly l : loc).

Lemma bind_ok {A B} (m : M F A) (k : A → M F B) s a s' :
  m s = Ok (a, s') → bind m k s = k a s'.
Proof. unfold bind. by intros ->. Qed.

Lemma bind_raise {A B} (m : M F A) (k : A → M F B) s e :
  m s = Raise e → bind m k s = Raise e.
Proof. unfold bind. by intros ->. Qed.

Lemma read_ok s l a : s !! l = Some (Grid a) → read l s = Ok (a, s).
Proof. unfold read. by intros ->. Qed.

Lemma get_shape_ok s l a : s !! l = Some (Grid a) → get_shape l s = Ok (shape a, s).
Proof. intros Hl. unfold get_shape. by rewrite (bind_ok _ _ _ _ _ (read_ok _ _ _ Hl)). Qed.

Lemma fresh_lookup s : s !! fresh (dom s) = None.
Proof. apply (not_elem_of_dom_1 (M := gmap loc)), is_fresh. Qed.

Lemma fresh_ne s l o : s !! l = Some o → l ≠ fresh (dom s).
Proof. intros Hl ->. by rewrite fresh_lookup in Hl. Qed.

Lemma alloc_ok s o : alloc o s = Ok (fresh (dom s), <[fresh (dom s) := o]> s).
Proof. done. Qed.

Lemma window_sum_ok s lx lk X K i j h w v :
  s !! lx = Some (Grid X) → s !! lk = Some (Grid K) →
  window X K i j h w = Ok v →
  window_sum lx lk i j h w s = Ok (v, s).
Proof.
  intros Hx Hk Hv. unfold window_sum.
  rewrite (bind_ok _ _ _ _ _ (read_ok _ _ _ Hx)).
  rewrite (bind_ok _ _ _ _ _ (read_ok _ _ _ Hk)).
  unfold lift. by rewrite Hv.
Qed.

Lemma np_setitem_ok s ly Y i j v Y' :
  s !! ly = Some (Grid Y) → setitem Y i j v = Ok Y' →
  np_setitem ly i j v s = Ok (tt, <[ly := Grid Y']> s).
Proof.
  intros Hy Hset. unfold np_setitem.
  rewrite (bind_ok _ _ _ _ _ (read_ok _ _ _ Hy)).
  unfold bind, lift, write. by rewrite Hset.
Qed.

(** The inner loop, over any list [js] of columns of row [i]: the cells
    [(i, j)], [j ∈ js], receive their windows' sums; nothing else changes. *)
Lemma inner_loop js : ∀ s lx lk ly X K Y i h w (f : nat → F),
  s !! lx = Some (Grid X) → s !! lk = Some (Grid K) →
  s !! ly = Some (Grid Y) → lx ≠ ly → lk ≠ ly →
  wf Y = true → i < (shape Y).1 →
  (∀ j, j ∈ js → j < (shape Y).2 ∧ window X K i j h w = Ok (f j)) →
  ∃ Y', for_each js (λ j, v <- window_sum lx lk i j h w ;; np_setitem ly i j v) s
          = Ok (tt, <[ly := Grid Y']> s) ∧
        shape Y' = shape Y ∧ wf Y' = true ∧
        ∀ i' j', lookup2 Y' i' j' =
                 if decide (i' = i ∧ j' ∈ js) then Some (f j') else lookup2 Y i' j'.
Proof.
  induction js as [|j js IH]; intros s lx lk ly X K Y i h w f Hx Hk Hy Hxy Hky HY Hi Hjs.
  - exists Y. cbn [for_each]. unfold ret. rewrite insert_id by done.
    split_and!; try done; intros i' j';
      rewrite decide_False; [done | intros [_ ?%elem_of_nil]; done].
  - destruct (Hjs j) as [Hj Hv]; [by left|].
    destruct (setitem_ok Y i j (f j) Hi Hj) as [Y1 HY1].
    pose proof (setitem_shape _ _ _ _ _ HY1) as Hs1.
    pose proof (setitem_wf _ _ _ _ _ HY1 HY) as Hwf1.
    destruct (IH (<[ly := Grid Y1]> s) lx lk ly X K Y1 i h w f) as (Y' & Hrun & Hs' & Hwf' & Hc');
      try done.
    + by rewrite lookup_insert_ne.
    + by rewrite lookup_insert_ne.
    + by rewrite lookup_insert_eq.
    + by rewrite Hs1.
    + intros j0 Hj0. rewrite Hs1. apply Hjs. by right.
    + exists Y'. split; [|split; [congruence|split; [done|]]].
      * cbn [for_each].
        rewrite (bind_ok _ _ _ tt (<[ly := Grid Y1]> s)).
        -- by rewrite Hrun, insert_insert_eq.
        -- rewrite (bind_ok _ _ _ _ _ (window_sum_ok _ _ _ _ _ _ _ _ _ _ Hx Hk Hv)).
           by apply (np_setitem_ok _ _ Y).
      * intros i' j'. rewrite Hc', (setitem_lookup2 _ _ _ _ _ _ _ HY1 HY).
        destruct (decide (i' = i ∧ j' ∈ js)) as [[-> Hin]|Hnin].
        -- rewrite decide_True; [done|]. split; [done | by right].
        -- destruct (decide (i' = i ∧ j' = j)) as [[-> ->]|Hne].
           ++ rewrite decide_True; [done|]. split; [done | by left].
           ++ rewrite decide_False; [done|].
              intros [-> [->|Hin]%elem_of_cons]; tauto.
Qed.

(** The outer loop, over any list [is] of rows. *)
Lemma outer_loop rs : ∀ s lx lk ly X K Y h w (f : nat → nat → F),
  s !! lx = Some (Grid X) → s !! lk = Some (Grid K) →
  s !! ly = Some (Grid Y) → lx ≠ ly → lk ≠ ly →
  wf Y = true →
  (∀ i, i ∈ rs → i < (shape Y).1) →
  (∀ i j, i ∈ rs → j < (shape Y).2 → window X K i j h w = Ok (f i j)) →
  ∃ Y', for_each rs (λ i,
          yshape' <- get_shape ly ;;
          for_range yshape'.2 (λ j,
            v <- window_sum lx lk i j h w ;; np_setitem ly i j v)) s
          = Ok (tt, <[ly := Grid Y']> s) ∧
        shape Y' = shape Y ∧ wf Y' = true ∧
        ∀ i' j', lookup2 Y' i' j' =
                 if decide (i' ∈ rs ∧ j' < (shape Y).2)
                 then Some (f i' j') else lookup2 Y i' j'.
Proof.
  induction rs as [|i rs IH]; intros s lx lk ly X K Y h w f Hx Hk Hy Hxy Hky HY Hrs Hwin.
  - exists Y. cbn [for_each]. unfold ret. rewrite insert_id by done.
    split_and!; done.
  - assert (Hi : i < (shape Y).1) by (apply Hrs; by left).
    assert (Hrow : ∀ j, j ∈ seq 0 (shape Y).2 →
                        j < (shape Y).2 ∧ window X K i j h w = Ok (f i j)).
    { intros j [_ Hj]%elem_of_seq. split; [lia|]. apply Hwin; [by left | lia]. }
    destruct (inner_loop (seq 0 (shape Y).2) s lx lk ly X K Y i h w (f i)
                Hx Hk Hy Hxy Hky HY Hi Hrow)
      as (Y1 & Hrun1 & Hs1 & Hwf1 & Hc1).
    destruct (IH (<[ly := Grid Y1]> s) lx lk ly X K Y1 h w f) as (Y' & Hrun & Hs' & Hwf' & Hc');
      try done.
    + by rewrite lookup_insert_ne.
    + by rewrite lookup_insert_ne.
    + by rewrite lookup_insert_eq.
    + intros i0 Hi0. rewrite Hs1. apply Hrs. by right.
    + intros i0 j0 Hi0 Hj0. rewrite Hs1 in Hj0. apply Hwin; [by right | done].
    + exists Y'. split; [|split; [congruence|split; [done|]]].
      * cbn [for_each].
        rewrite (bind_ok _ _ _ tt (<[ly := Grid Y1]> s)).
        -- by rewrite Hrun, insert_insert_eq.
        -- rewrite (bind_ok _ _ _ _ _ (get_shape_ok _ _ _ Hy)). apply Hrun1.
      * intros i' j'. rewrite Hc', Hs1, Hc1.
        destruct (decide (i' ∈ rs ∧ j' < (shape Y).2)) as [[Hin Hj']|Hnin].
        -- rewrite decide_True; [done|]. split; [by right | done].
        -- destruct (decide (i' = i ∧ j' ∈ seq 0 (shape Y).2)) as [[-> Hj']|Hne].
           ++ apply elem_of_seq in Hj'.
              rewrite decide_True; [done|]. split; [by left | lia].
           ++ rewrite decide_False; [done|].
              intros [[->|Hin]%elem_of_cons Hj']; [|tauto].
              apply Hne. split; [done|]. apply elem_of_seq. lia.
Qed.

(** [corr2d] on a store: whenever both output dimensions are non-negative
    and every window of the output can be computed, the call allocates one
    new array, the table of the windows' sums, and changes nothing else. *)
Lemma corr2d_run s lx lk X K r c (f : nat → nat → F) :
  s !! lx = Some (Grid X) → s !! lk = Some (Grid K) →
  (Z.of_nat (shape X).1 - Z.of_nat (shape K).1 + 1 = Z.of_nat r)%Z →
  (Z.of_nat (shape X).2 - Z.of_nat (shape K).2 + 1 = Z.of_nat c)%Z →
  (∀ i j, i < r → j < c →
     window X K i j (shape K).1 (shape K).2 = Ok (f i j)) →
  corr2d lx lk s =
  Ok (fresh (dom s), <[fresh (dom s) := Grid (tabulate r c f)]> s).
Proof.
  intros Hx Hk Hr Hc Hwin. unfold corr2d.
  rewrite (bind_ok _ _ _ _ _ (get_shape_ok _ _ _ Hk)).
  rewrite (bind_ok _ _ _ _ _ (get_shape_ok _ _ _ Hx)).
  set (ly := fresh (dom s)).
  set (Y0 := tabulate r c (λ _ _, f0)).
  assert (HY0 : np_zeros (Z.of_nat (shape X).1 - Z.of_nat (shape K).1 + 1,
                          Z.of_nat (shape X).2 - Z.of_nat (shape K).2 + 1)%Z s
                = Ok (ly, <[ly := Grid Y0]> s)).
  { unfold np_zeros, zeros, full, bind, lift; simpl. rewrite Hr, Hc.
    replace (Z.of_nat r <? 0)%Z with false by lia.
    replace (Z.of_nat c <? 0)%Z with false by lia.
    simpl. by rewrite !Nat2Z.id. }
  rewrite (bind_ok _ _ _ _ _ HY0).
  assert (Hy : <[ly := Grid Y0]> s !! ly = Some (Grid Y0)) by apply lookup_insert_eq.
  rewrite (bind_ok _ _ _ _ _ (get_shape_ok _ _ _ Hy)).
  destruct (outer_loop (seq 0 r) (<[ly := Grid Y0]> s) lx lk ly X K Y0
              (shape K).1 (shape K).2 f)
    as (Y' & Hrun & Hs' & Hwf' & Hc'); try done.
  - rewrite lookup_insert_ne; [done | symmetry; by eapply fresh_ne].
  - rewrite lookup_insert_ne; [done | symmetry; by eapply fresh_ne].
  - by eapply fresh_ne.
  - by eapply fresh_ne.
  - apply wf_tabulate.
  - intros i [_ Hi]%elem_of_seq. simpl. lia.
  - intros i j [_ Hi]%elem_of_seq Hj. apply Hwin; [lia | done].
  - unfold for_range at 1. simpl shape. simpl fst.
    rewrite (bind_ok _ _ _ _ _ Hrun). unfold ret.
    rewrite insert_insert_eq. do 4 f_equal.
    apply ndarray_ext; try done.
    + apply wf_tabulate.
    + rewrite Hs'. simpl. intros i j Hi Hj.
      rewrite Hc', lookup2_tabulate by done.
      rewrite decide_True; [done|]. split; [apply elem_of_seq; lia | done].
Qed.

End CommandFacts.

(** ** The value [corr2d] computes *)

Section Corr2dValue.
Context {F : Type} {SF : Scalar F}.
Implicit Types (s : heap F) (X K Y : ndarray F) (lx lk ly l : loc).

Lemma corr2d_fits s lx lk X K :
  s !! lx = Some (Grid X) → s !! lk = Some (Grid K) →
  (shape K).1 ≤ (shape X).1 → (shape K).2 ≤ (shape X).2 →
  corr2d lx lk s =
  Ok (fresh (dom s), <[fresh (dom s) := Grid (corr2d_value X K)]> s).
Proof.
  intros Hx Hk Hh Hw. apply (corr2d_run s lx lk X K); try done; try lia.
  intros i j Hi Hj. apply window_fits; [by destruct (shape K) | lia | lia].
Qed.

Lemma returns_intro (m : M F loc) s l s' Y :
  m s = Ok (l, s') → s' !! l = Some (Grid Y) → returns m s Y.
Proof. intros Hm Hl. exists l, s'. done. Qed.

Lemma returns_fun (m : M F loc) s Y Y' :
  returns m s Y → returns m s Y' → Y = Y'.
Proof. intros (l & s' & Hm & Hl) (l' & s'' & Hm' & Hl'). congruence. Qed.

Lemma corr2d_returns s lx lk X K :
  s !! lx = Some (Grid X) → s !! lk = Some (Grid K) →
  (shape K).1 ≤ (shape X).1 → (shape K).2 ≤ (shape X).2 →
  returns (corr2d lx lk) s (corr2d_value X K).
Proof.
  intros Hx Hk Hh Hw. eapply returns_intro.
  - by apply corr2d_fits.
  - apply lookup_insert_eq.
Qed.

Lemma getitem_cell a i j :
  wf a = true → i < (shape a).1 → j < (shape a).2 →
  getitem a i j = Ok (cell a i j).
Proof.
  intros Ha Hi Hj. unfold getitem, cell.
  by destruct (lookup2_lt a i j Ha Hi Hj) as [v ->].
Qed.

End Corr2dValue.

(** ** Further facts used by the properties below *)

Section MoreFacts.
Context {F : Type} {SF : Scalar F}.
Implicit Types (s : heap F) (X K Y a : ndarray F) (lx lk ly l : loc).

Lemma np_zeros_negative s (shp : Z * Z) :
  (shp.1 < 0 ∨ shp.2 < 0)%Z → np_zeros shp s = Raise NegativeDimensions.
Proof.
  intros Hneg. unfold np_zeros, zeros, full, bind, lift.
  replace ((shp.1 <? 0)%Z || (shp.2 <? 0)%Z) with true; [done|].
  symmetry. apply orb_true_iff. rewrite !Z.ltb_lt. done.
Qed.

(** An output dimension below zero: [np.zeros] raises before any loop. *)
Lemma corr2d_raises s lx lk X K :
  s !! lx = Some (Grid X) → s !! lk = Some (Grid K) →
  (shape X).1 + 1 < (shape K).1 ∨ (shape X).2 + 1 < (shape K).2 →
  corr2d lx lk s = Raise NegativeDimensions.
Proof.
  intros Hx Hk Hbig. unfold corr2d.
  rewrite (bind_ok _ _ _ _ _ (get_shape_ok _ _ _ Hk)).
  rewrite (bind_ok _ _ _ _ _ (get_shape_ok _ _ _ Hx)).
  apply bind_raise, np_zeros_negative. simpl. lia.
Qed.

(** A kernel exactly one longer than the input on some axis, and at most
    one longer on the other: the output has no cells and no loop body
    runs. *)
Lemma corr2d_empty s lx lk X K :
  s !! lx = Some (Grid X) → s !! lk = Some (Grid K) →
  (shape K).1 ≤ (shape X).1 + 1 → (shape K).2 ≤ (shape X).2 + 1 →
  (shape X).1 < (shape K).1 ∨ (shape X).2 < (shape K).2 →
  corr2d lx lk s =
  Ok (fresh (dom s),
      <[fresh (dom s) :=
          Grid (tabulate ((shape X).1 + 1 - (shape K).1)
                         ((shape X).2 + 1 - (shape K).2) (λ _ _, f0))]> s).
Proof.
  intros Hx Hk Hh Hw Hbig.
  apply (corr2d_run s lx lk X K); try done; lia.
Qed.

Lemma tabulate_no_cells r c (f : nat → nat → F) :
  r = 0 ∨ c = 0 → concat (rows (tabulate r c f)) = [].
Proof.
  intros [-> | ->]; [done|]. unfold tabulate; cbn [rows seq fmap list_fmap].
  induction (seq 0 r) as [|i l IH]; [done|]. by rewrite fmap_cons.
Qed.

Lemma broadcast_dim_1_r n : broadcast_dim n 1 = Some n.
Proof.
  unfold broadcast_dim. destruct (Nat.eqb_spec n 1) as [->|]; [done|].
  by rewrite Nat.eqb_refl.
Qed.

Lemma add_to_every_cell_wf a b : wf a = true → wf (add_to_every_cell a b) = true.
Proof.
  rewrite !wf_spec. unfold add_to_every_cell; simpl. intros [Hl Hr]. split.
  - by rewrite length_fmap.
  - intros i r. rewrite list_lookup_fmap.
    destruct (rows a !! i) as [r0|] eqn:Hi; simpl; [|done].
    intros [= <-]. rewrite length_fmap. eauto.
Qed.

Lemma add_to_every_cell_lookup2 a b i j :
  lookup2 (add_to_every_cell a b) i j = (λ y, fadd y b) <$> lookup2 a i j.
Proof.
  unfold lookup2, add_to_every_cell; simpl. rewrite list_lookup_fmap.
  destruct (rows a !! i); simpl; [|done]. by rewrite list_lookup_fmap.
Qed.

(** Adding an array of shape [(1,)] adds its element to every cell. *)
Lemma add_vec1 a b :
  wf a = true → add a (as_grid (Vec [b])) = Ok (add_to_every_cell a b).
Proof.
  intros Ha. unfold add, broadcast2; simpl.
  rewrite !broadcast_dim_1_r. f_equal.
  apply ndarray_ext; try done.
  - apply wf_tabulate.
  - by apply add_to_every_cell_wf.
  - simpl. symmetry. apply surjective_pairing.
  - simpl. intros i j Hi Hj.
    rewrite lookup2_tabulate, add_to_every_cell_lookup2 by done.
    rewrite !bidx_lt by done.
    destruct (lookup2_lt a i j Ha Hi Hj) as [v Hv].
    unfold cell at 1. rewrite Hv. done.
Qed.


Lemma obj_add_grid_vec1 a b :
  wf a = true → obj_add (Grid a) (Vec [b]) = Ok (Grid (add_to_every_cell a b)).
Proof.
  intros Ha.
  change (obj_add (Grid a) (Vec [b]))
    with (result_map Grid (add a (as_grid (Vec [b])))).
  by rewrite add_vec1.
Qed.

Lemma read_obj_ok s l o : s !! l = Some o → read_obj l s = Ok (o, s).
Proof. unfold read_obj. by intros ->. Qed.

Lemma np_add_ok s la lb oa ob oc :
  s !! la = Some oa → s !! lb = Some ob → obj_add oa ob = Ok oc →
  np_add la lb s = Ok (fresh (dom s), <[fresh (dom s) := oc]> s).
Proof.
  intros Ha Hb Hc. unfold np_add.
  rewrite (bind_ok _ _ _ _ _ (read_obj_ok _ _ _ Ha)).
  rewrite (bind_ok _ _ _ _ _ (read_obj_ok _ _ _ Hb)).
  unfold bind, lift. by rewrite Hc.
Qed.

Lemma corr2d_value_shape X K :
  shape (corr2d_value X K) =
  ((shape X).1 - (shape K).1 + 1, (shape X).2 - (shape K).2 + 1).
Proof. done. Qed.

End MoreFacts.

(** ** Properties of [corr2d] *)

Section Corr2dProperties.
Context {F : Type} {SF : Scalar F}.
Implicit Types (s : heap F) (X K Y : ndarray F) (lx lk ly l : loc).

(** C2.  For an input of shape (H, W) and a kernel of shape (kh, kw) with
    kh ≤ H and kw ≤ W, [corr2d] returns an array of shape exactly
    (H − kh + 1, W − kw + 1), whose rows agree with that shape. *)
Theorem corr2d_output_shape s lx lk X K (H W kh kw : nat) :
  s !! lx = Some (Grid X) → s !! lk = Some (Grid K) →
  has_shape X (H, W) → has_shape K (kh, kw) →
  kh ≤ H → kw ≤ W →
  ∃ Y, returns (corr2d lx lk) s Y ∧ has_shape Y (H - kh + 1, W - kw + 1).
Proof.
  intros Hx Hk [_ HX] [_ HK] Hh Hw.
  exists (corr2d_value X K). split.
  - apply corr2d_returns; try done; rewrite HX, HK; done.
  - split; [apply wf_tabulate|]. by rewrite corr2d_value_shape, HX, HK.
Qed.

(** C3.  When the kernel is taller or wider than the input, the caller
    gets one of two outcomes and nothing else: the shape error raised by
    [np.zeros] (no array is returned), or an empty array, of zero height
    or zero width and without cells. *)
Theorem corr2d_kernel_too_large s lx lk X K (H W kh kw : nat) :
  s !! lx = Some (Grid X) → s !! lk = Some (Grid K) →
  has_shape X (H, W) → has_shape K (kh, kw) →
  kh > H ∨ kw > W →
  corr2d lx lk s = Raise NegativeDimensions ∨
  ∃ Y, returns (corr2d lx lk) s Y ∧
       ((shape Y).1 = 0 ∨ (shape Y).2 = 0) ∧
       wf Y = true ∧ concat (rows Y) = [].
Proof.
  intros Hx Hk [_ HX] [_ HK] Hbig.
  destruct (decide (H + 1 < kh ∨ W + 1 < kw)) as [Hneg|Hnn].
  - left. apply (corr2d_raises s lx lk X K); try done. by rewrite HX, HK.
  - right. eexists. split; [|split; [|split]].
    + eapply returns_intro; [|apply lookup_insert_eq].
      apply (corr2d_empty s lx lk X K); try done; rewrite HX, HK; simpl; lia.
    + rewrite HX, HK. simpl. lia.
    + apply wf_tabulate.
    + apply tabulate_no_cells. rewrite HX, HK. simpl. lia.
Qed.

(** C5.  When input and kernel have one shape, the output has shape
    (1, 1) and its single cell is [(X * K).sum()], the sum of the
    elementwise product over the whole input. *)
Theorem corr2d_kernel_as_large_as_input s lx lk X K (H W : nat) :
  s !! lx = Some (Grid X) → s !! lk = Some (Grid K) →
  has_shape X (H, W) → has_shape K (H, W) →
  ∃ P, mul X K = Ok P ∧
       returns (corr2d lx lk) s {| shape := (1, 1); rows := [[sum P]] |}.
Proof.
  intros Hx Hk [_ HX] [_ HK].
  eexists. split; [apply (broadcast2_same _ _ _ H W HX HK)|].
  pose proof (corr2d_returns s lx lk X K Hx Hk) as Hret.
  unfold corr2d_value, window_value in Hret. rewrite HX, HK in Hret. simpl in Hret.
  rewrite !Nat.sub_diag in Hret. apply Hret; done.
Qed.

(** C9.  A valid call has no side effect on existing objects: the
    returned reference is new (it pointed to nothing before the call, so
    it aliases neither input nor any other object), every object of the
    store before the call is unchanged after it, in particular [X] and
    [K], and the new object is the only one added. *)
Theorem corr2d_pure s lx lk X K (H W kh kw : nat) :
  s !! lx = Some (Grid X) → s !! lk = Some (Grid K) →
  has_shape X (H, W) → has_shape K (kh, kw) →
  kh ≤ H → kw ≤ W →
  ∃ ly s' Y,
    corr2d lx lk s = Ok (ly, s') ∧
    s !! ly = None ∧ ly ≠ lx ∧ ly ≠ lk ∧
    s' !! ly = Some (Grid Y) ∧
    s' !! lx = Some (Grid X) ∧ s' !! lk = Some (Grid K) ∧
    ∀ l, l ≠ ly → s' !! l = s !! l.
Proof.
  intros Hx Hk [_ HX] [_ HK] Hh Hw.
  exists (fresh (dom s)), (<[fresh (dom s) := Grid (corr2d_value X K)]> s),
         (corr2d_value X K).
  pose proof (fresh_ne s lx _ Hx) as Hnx.
  pose proof (fresh_ne s lk _ Hk) as Hnk.
  split_and!; try done.
  - apply corr2d_fits; try done; rewrite HX, HK; done.
  - apply fresh_lookup.
  - apply lookup_insert_eq.
  - by rewrite lookup_insert_ne.
  - by rewrite lookup_insert_ne.
  - intros l Hl. by rewrite lookup_insert_ne.
Qed.

(** C10.  [Conv2D.forward(x)] returns [corr2d(x, weight)] with the scalar
    bias added to every cell. *)
Theorem forward_is_corr2d_plus_bias s (self : Conv2D) lx X Wt (b : F)
    (H W kh kw : nat) :
  s !! lx = Some (Grid X) → Conv2D_params self (kh, kw) Wt b s →
  has_shape X (H, W) → kh ≤ H → kw ≤ W →
  ∃ Y, returns (corr2d lx (weight self)) s Y ∧
       returns (forward self lx) s (add_to_every_cell Y b).
Proof.
  intros Hx (Hw & [_ HWt] & Hb) [_ HX] Hh Hww.
  assert (Hfit : (shape Wt).1 ≤ (shape X).1 ∧ (shape Wt).2 ≤ (shape X).2)
    by (by rewrite HX, HWt).
  destruct Hfit as [Hf1 Hf2].
  exists (corr2d_value X Wt). split; [by apply corr2d_returns|].
  unfold forward.
  eapply returns_intro; [|apply lookup_insert_eq].
  rewrite (bind_ok _ _ _ _ _ (corr2d_fits s lx _ X Wt Hx Hw Hf1 Hf2)).
  eapply np_add_ok.
  - apply lookup_insert_eq.
  - rewrite lookup_insert_ne; [done | symmetry; by eapply fresh_ne].
  - apply obj_add_grid_vec1, wf_tabulate.
Qed.

End Corr2dProperties.

(** ** The contract's formula *)

Section Corr2dFormula.
Context {F : Type} {SF : Scalar F}.
Implicit Types (s : heap F) (X K Y : ndarray F) (lx lk ly l : loc).

(** The sum of a table, element by element: the rows are concatenated and
    folded into one accumulator. *)
Lemma sum_tabulate_fold h w (g : nat → nat → F) :
  sum (tabulate h w g) =
  foldr (λ p acc, foldr (λ q acc', fadd (g p q) acc') acc (seq 0 w))
        f0 (seq 0 h).
Proof.
  unfold sum, sum_list, tabulate. cbn [rows].
  induction (seq 0 h) as [|p ps IH]; [done|].
  rewrite fmap_cons. cbn [concat foldr].
  by rewrite foldr_app, IH, foldr_fmap.
Qed.

(** C1.  For an input of shape (H, W) and a kernel of shape (kh, kw) with
    kh ≤ H and kw ≤ W, [corr2d] returns an array [Y] with, at every valid
    output coordinate (i, j),
    [Y[i][j] = Σ_{p<kh} Σ_{q<kw} X[i+p][j+q] * K[p][q]].  This holds for
    every element type, floating point included: no law of arithmetic is
    used, the sum on the right adds its terms in the order [A.sum()] is
    modelled with. *)
Theorem corr2d_cross_correlation s lx lk X K (H W kh kw : nat) :
  s !! lx = Some (Grid X) → s !! lk = Some (Grid K) →
  has_shape X (H, W) → has_shape K (kh, kw) →
  kh ≤ H → kw ≤ W →
  ∃ Y, returns (corr2d lx lk) s Y ∧
       ∀ i j, i < H - kh + 1 → j < W - kw + 1 →
              getitem Y i j = Ok (cross_correlation X K kh kw i j).
Proof.
  intros Hx Hk [_ HX] [_ HK] Hh Hw.
  exists (corr2d_value X K). split.
  - apply corr2d_returns; try done; rewrite HX, HK; done.
  - intros i j Hi Hj. unfold getitem, corr2d_value.
    rewrite lookup2_tabulate by (rewrite HX, HK; done).
    unfold window_value. by rewrite sum_tabulate_fold, HK.
Qed.

End Corr2dFormula.

(** ** The notebook's examples *)

(** C6.  On [X = [[0,1,2],[3,4,5],[6,7,8]]] and [K = [[0,1],[2,3]]],
    [corr2d] returns exactly [[[19,25],[37,43]]]. *)
Theorem corr2d_validate :
  run_array cell_validate =
  Ok {| shape := (2, 2); rows := [[19; 25]; [37; 43]]%Z |}.
Proof. vm_compute. reflexivity. Qed.

(** C7.  The image is a 6x8 grid of ones with columns 2..5 set to zero;
    with [K = [[1,-1]]], [corr2d] returns a 6x7 grid that is 1 in column 1
    (white to black), -1 in column 5 (black to white) and 0 in every other
    cell. *)
Theorem corr2d_detects_edges :
  run_array cell_image =
    Ok (tabulate 6 8 (λ _ j, if (2 <=? j) && (j <? 6) then 0%Z else 1%Z)) ∧
  run_array cell_edges =
    Ok (tabulate 6 7 (λ _ j, if j =? 1 then 1%Z else if j =? 5 then (-1)%Z else 0%Z)).
Proof. split; vm_compute; reflexivity. Qed.

(** C8, as the code has it.  On the transposed image, an 8x6 grid whose
    rows are constant, [corr2d] with [K = [[1,-1]]] returns the all-zero
    grid of shape 8x5. *)
Theorem corr2d_transposed_vanishes :
  run_array (X <- cell_image ;; transpose X) =
    Ok (tabulate 8 6 (λ i _, if (2 <=? i) && (i <? 6) then 0%Z else 1%Z)) ∧
  run_array cell_transposed = Ok (tabulate 8 5 (λ _ _, 0%Z)).
Proof. split; vm_compute; reflexivity. Qed.

(** C8, as stated, fails: the result is not a grid of shape 8x7. *)
Lemma corr2d_transposed_not_8x7 :
  ¬ ∃ Y : ndarray Z,
      run_array cell_transposed = Ok Y ∧ shape Y = (8, 7) ∧
      ∀ i j, i < 8 → j < 7 → lookup2 Y i j = Some 0%Z.
Proof.
  intros (Y & HY & Hshape & _).
  assert (Hrun : run_array cell_transposed = Ok (tabulate 8 5 (λ _ _, 0%Z)))
    by (vm_compute; reflexivity).
  rewrite Hrun in HY. injection HY as <-. discriminate Hshape.
Qed.

(** A kernel two rows taller than the input: [np.zeros] raises.  One row
    taller: the result is the empty array of shape (0, 2). *)
Example corr2d_too_tall_raises :
  run_array (X <- np_array [[1; 2]; [3; 4]]%Z ;;
             K <- np_array [[1; 1]; [1; 1]; [1; 1]; [1; 1]]%Z ;;
             corr2d X K) = Raise NegativeDimensions.
Proof. vm_compute. reflexivity. Qed.

Example corr2d_one_too_tall_empty :
  run_array (X <- np_array [[1; 2; 3]; [4; 5; 6]]%Z ;;
             K <- np_array [[1; 1]; [1; 1]; [1; 1]]%Z ;;
             corr2d X K) = Ok {| shape := (0, 2); rows := [] |}.
Proof. vm_compute. reflexivity. Qed.

(** ** The properties at concrete inputs *)

Lemma corr2d_output_shape_witness :
  ∃ Y, returns (corr2d ref_X ref_K) example_store Y ∧ has_shape Y (3 - 2 + 1, 3 - 2 + 1).
Proof.
  apply (corr2d_output_shape example_store ref_X ref_K X3 K2 3 3 2 2);
    [reflexivity | reflexivity | split; reflexivity | split; reflexivity
    | lia | lia].
Defined.

Lemma corr2d_kernel_too_large_witness :
  corr2d ref_X ref_K4 example_store = Raise NegativeDimensions ∨
  ∃ Y, returns (corr2d ref_X ref_K4) example_store Y ∧
       ((shape Y).1 = 0 ∨ (shape Y).2 = 0) ∧
       wf Y = true ∧ concat (rows Y) = [].
Proof.
  apply (corr2d_kernel_too_large example_store ref_X ref_K4 X3 K4 3 3 4 2);
    [reflexivity | reflexivity | split; reflexivity | split; reflexivity
    | left; lia].
Defined.

Lemma corr2d_kernel_as_large_as_input_witness :
  ∃ P, mul X3 K3 = Ok P ∧
       returns (corr2d ref_X ref_K3) example_store {| shape := (1, 1); rows := [[sum P]] |}.
Proof.
  apply (corr2d_kernel_as_large_as_input example_store ref_X ref_K3 X3 K3 3 3);
    [reflexivity | reflexivity | split; reflexivity | split; reflexivity].
Defined.

Lemma corr2d_pure_witness :
  ∃ ly s' Y,
    corr2d ref_X ref_K example_store = Ok (ly, s') ∧
    example_store !! ly = None ∧ ly ≠ ref_X ∧ ly ≠ ref_K ∧
    s' !! ly = Some (Grid Y) ∧
    s' !! ref_X = Some (Grid X3) ∧ s' !! ref_K = Some (Grid K2) ∧
    ∀ l, l ≠ ly → s' !! l = example_store !! l.
Proof.
  apply (corr2d_pure example_store ref_X ref_K X3 K2 3 3 2 2);
    [reflexivity | reflexivity | split; reflexivity | split; reflexivity
    | lia | lia].
Defined.

Lemma forward_is_corr2d_plus_bias_witness :
  ∃ Y, returns (corr2d ref_X (weight example_layer)) example_store Y ∧
       returns (forward example_layer ref_X) example_store (add_to_every_cell Y 5%Z).
Proof.
  apply (forward_is_corr2d_plus_bias example_store example_layer ref_X X3 K2 5%Z 3 3 2 2);
    [reflexivity
    | split; [reflexivity | split; [split; reflexivity | reflexivity]]
    | split; reflexivity | lia | lia].
Defined.

(** ** Outcomes of [corr2d] on arbitrary two-dimensional arrays *)

Section Corr2dOutcomes.
Context {F : Type} {SF : Scalar F}.
Implicit Types (s : heap F) (X K Y : ndarray F) (lx lk ly l : loc).

(** Whenever neither output dimension is negative, the call succeeds:
    every slice taken in the loop has the kernel's shape and every item
    assignment is in range. *)
Lemma corr2d_ok s lx lk X K :
  s !! lx = Some (Grid X) → s !! lk = Some (Grid K) →
  (shape K).1 ≤ (shape X).1 + 1 → (shape K).2 ≤ (shape X).2 + 1 →
  corr2d lx lk s =
  Ok (fresh (dom s),
      <[fresh (dom s) :=
          Grid (tabulate ((shape X).1 + 1 - (shape K).1)
                         ((shape X).2 + 1 - (shape K).2)
                         (window_value X K))]> s).
Proof.
  intros Hx Hk Hh Hw.
  apply (corr2d_run s lx lk X K); try done; try lia.
  intros i j Hi Hj. apply window_fits; [by destruct (shape K) | lia | lia].
Qed.

(** X1.  On two-dimensional arrays [corr2d] raises the shape error of
    [np.zeros] exactly when the kernel exceeds the input by two or more
    on some axis; a kernel one longer than the input does not raise. *)
Theorem corr2d_raises_iff s lx lk X K :
  s !! lx = Some (Grid X) → s !! lk = Some (Grid K) →
  corr2d lx lk s = Raise NegativeDimensions ↔
  (shape X).1 + 1 < (shape K).1 ∨ (shape X).2 + 1 < (shape K).2.
Proof.
  intros Hx Hk. split.
  - intros Hraise.
    destruct (decide ((shape X).1 + 1 < (shape K).1 ∨
                      (shape X).2 + 1 < (shape K).2)) as [Hbig|Hsmall]; [done|].
    rewrite (corr2d_ok s lx lk X K) in Hraise by (done || lia). done.
  - by apply corr2d_raises.
Qed.

(** X2.  On two-dimensional arrays [corr2d] never fails inside its loops:
    the only exception it can raise is the one of [np.zeros]; no
    broadcasting error from [X[i:i + h, j:j + w] * K] and no index error
    from [Y[i, j] = ...] can occur, whatever the shapes. *)
Theorem corr2d_only_shape_error s lx lk X K e :
  s !! lx = Some (Grid X) → s !! lk = Some (Grid K) →
  corr2d lx lk s = Raise e → e = NegativeDimensions.
Proof.
  intros Hx Hk Hraise.
  destruct (decide ((shape X).1 + 1 < (shape K).1 ∨
                    (shape X).2 + 1 < (shape K).2)) as [Hbig|Hsmall].
  - rewrite (corr2d_raises s lx lk X K Hx Hk Hbig) in Hraise. congruence.
  - rewrite (corr2d_ok s lx lk X K) in Hraise by (done || lia). done.
Qed.

(** X3.  Receptive field: the output element at [(i, j)] depends only on
    the window of the input at rows [i .. i+kh-1], columns [j .. j+kw-1].
    Two inputs that agree on that window give the same output element. *)
Theorem corr2d_receptive_field s lx lx' lk X X' K (i j : nat) :
  s !! lx = Some (Grid X) → s !! lx' = Some (Grid X') →
  s !! lk = Some (Grid K) →
  i + (shape K).1 ≤ (shape X).1 → j + (shape K).2 ≤ (shape X).2 →
  i + (shape K).1 ≤ (shape X').1 → j + (shape K).2 ≤ (shape X').2 →
  (∀ p q, p < (shape K).1 → q < (shape K).2 →
          lookup2 X (i + p) (j + q) = lookup2 X' (i + p) (j + q)) →
  ∃ Y Y' v, returns (corr2d lx lk) s Y ∧ returns (corr2d lx' lk) s Y' ∧
            getitem Y i j = Ok v ∧ getitem Y' i j = Ok v.
Proof.
  intros Hx Hx' Hk Hi Hj Hi' Hj' Hagree.
  exists (corr2d_value X K), (corr2d_value X' K), (window_value X K i j).
  split; [apply corr2d_returns; try done; lia|].
  split; [apply corr2d_returns; try done; lia|].
  unfold getitem, corr2d_value.
  rewrite !lookup2_tabulate by lia. split; [done|].
  apply (f_equal Ok). unfold window_value. apply (f_equal sum), tabulate_ext.
  intros p q Hp Hq. unfold cell. by rewrite Hagree.
Qed.

End Corr2dOutcomes.

(** ** Cropping, stacking and the layer's frame *)

Section Corr2dStructure.
Context {F : Type} {SF : Scalar F}.
Implicit Types (s : heap F) (X K Y : ndarray F) (lx lk ly l : loc).

Lemma slice_wf X i0 i1 j0 j1 : wf X = true → wf (slice X i0 i1 j0 j1) = true.
Proof.
  rewrite !wf_spec. intros [Hl Hr]. unfold slice, slice_list; simpl. split.
  - rewrite length_fmap, length_take, length_drop. lia.
  - intros i row. rewrite list_lookup_fmap.
    destruct (take (i1 - i0) (drop i0 (rows X)) !! i) as [r|] eqn:Hi; simpl; [|done].
    intros [= <-]. apply lookup_take_Some in Hi as [Hi _].
    rewrite lookup_drop in Hi.
    rewrite length_take, length_drop, (Hr _ _ Hi). lia.
Qed.

(** The crop [X[a:, b:]] read inside its range. *)
Lemma crop_lookup2 X a b i j :
  a + i < (shape X).1 → b + j < (shape X).2 →
  lookup2 (slice X a (shape X).1 b (shape X).2) i j = lookup2 X (a + i) (b + j).
Proof.
  intros Hi Hj.
  replace (shape X).1 with (a + ((shape X).1 - a)) at 1 by lia.
  replace (shape X).2 with (b + ((shape X).2 - b)) at 1 by lia.
  apply slice_lookup2; lia.
Qed.

(** X4.  Translation: cropping the input from the top-left and then
    cross-correlating gives the crop of the cross-correlation,
    [corr2d(X[a:, b:], K) == corr2d(X, K)[a:, b:]]. *)
Theorem corr2d_crop s lx lc lk X K (a b : nat) :
  s !! lx = Some (Grid X) → s !! lk = Some (Grid K) →
  s !! lc = Some (Grid (slice X a (shape X).1 b (shape X).2)) →
  a + (shape K).1 ≤ (shape X).1 → b + (shape K).2 ≤ (shape X).2 →
  ∃ Y, returns (corr2d lx lk) s Y ∧
       returns (corr2d lc lk) s (slice Y a (shape Y).1 b (shape Y).2).
Proof.
  intros Hx Hk Hc Ha Hb.
  exists (corr2d_value X K).
  split; [apply corr2d_returns; try done; lia|].
  set (Xc := slice X a (shape X).1 b (shape X).2) in *.
  assert (HXc : shape Xc = ((shape X).1 - a, (shape X).2 - b)).
  { unfold Xc, slice; simpl. f_equal; lia. }
  replace (slice (corr2d_value X K) a (shape (corr2d_value X K)).1
             b (shape (corr2d_value X K)).2)
    with (corr2d_value Xc K).
  { apply (corr2d_returns s lc lk Xc K Hc Hk); rewrite HXc; simpl; lia. }
  apply ndarray_ext.
  - apply wf_tabulate.
  - apply slice_wf, wf_tabulate.
  - rewrite corr2d_value_shape, HXc. unfold slice; simpl. f_equal; lia.
  - rewrite corr2d_value_shape, HXc. simpl. intros i j Hi Hj.
    rewrite crop_lookup2 by (rewrite corr2d_value_shape; simpl; lia).
    unfold corr2d_value.
    rewrite !lookup2_tabulate by (rewrite ?HXc; simpl; lia).
    f_equal. unfold window_value. apply (f_equal sum), tabulate_ext.
    intros p q Hp Hq. unfold cell, Xc.
    rewrite crop_lookup2 by lia. by rewrite !Nat.add_assoc.
Qed.

(** X5.  Stacking: a second [corr2d] on the output of the first returns an
    array of shape (H + 2 − kh1 − kh2, W + 2 − kw1 − kw2), whenever the two
    kernels together exceed the input by at most one on each axis. *)
Theorem corr2d_twice_shape s lx l1 l2 X K1 K2 (H W kh1 kw1 kh2 kw2 : nat) :
  s !! lx = Some (Grid X) →
  s !! l1 = Some (Grid K1) → s !! l2 = Some (Grid K2) →
  shape X = (H, W) → shape K1 = (kh1, kw1) → shape K2 = (kh2, kw2) →
  kh1 + kh2 ≤ H + 1 → kw1 + kw2 ≤ W + 1 →
  ∃ Z, returns (corr2d_twice lx l1 l2) s Z ∧
       has_shape Z (H + 2 - kh1 - kh2, W + 2 - kw1 - kw2).
Proof.
  intros Hx H1 H2 HX HK1 HK2 Hh Hw.
  assert (Hf1 : (shape K1).1 ≤ (shape X).1 + 1 ∧ (shape K1).2 ≤ (shape X).2 + 1)
    by (rewrite HX, HK1; simpl; lia).
  pose proof (corr2d_ok s lx l1 X K1 Hx H1 (proj1 Hf1) (proj2 Hf1)) as Hrun1.
  set (ly := fresh (dom s)) in *.
  set (Y := tabulate _ _ _) in Hrun1.
  set (s1 := <[ly := Grid Y]> s) in *.
  assert (Hy : s1 !! ly = Some (Grid Y)) by apply lookup_insert_eq.
  assert (H21 : s1 !! l2 = Some (Grid K2)).
  { unfold s1. rewrite lookup_insert_ne; [done | symmetry; by eapply fresh_ne]. }
  assert (HY : shape Y = (H + 1 - kh1, W + 1 - kw1)).
  { unfold Y. by rewrite HX, HK1. }
  assert (Hf2 : (shape K2).1 ≤ (shape Y).1 + 1 ∧ (shape K2).2 ≤ (shape Y).2 + 1)
    by (rewrite HY, HK2; simpl; lia).
  pose proof (corr2d_ok s1 ly l2 Y K2 Hy H21 (proj1 Hf2) (proj2 Hf2)) as Hrun2.
  eexists. split.
  - unfold corr2d_twice. eapply returns_intro; [|apply lookup_insert_eq].
    rewrite (bind_ok _ _ _ _ _ Hrun1). exact Hrun2.
  - split; [apply wf_tabulate|]. rewrite HY, HK2. simpl. f_equal; lia.
Qed.

(** X6.  [Conv2D.forward] leaves every existing object as it was, in
    particular the input and the layer's own [weight] and [bias]; the
    reference it returns is new. *)
Theorem forward_preserves_store s (self : Conv2D) lx X Wt (b : F)
    (H W kh kw : nat) :
  s !! lx = Some (Grid X) → Conv2D_params self (kh, kw) Wt b s →
  has_shape X (H, W) → kh ≤ H → kw ≤ W →
  ∃ lo s', forward self lx s = Ok (lo, s') ∧
           s !! lo = None ∧
           (∀ l o, s !! l = Some o → s' !! l = Some o) ∧
           Conv2D_params self (kh, kw) Wt b s'.
Proof.
  intros Hx (Hw & [HwfW HWt] & Hb) [_ HX] Hh Hww.
  assert (Hfit : (shape Wt).1 ≤ (shape X).1 ∧ (shape Wt).2 ≤ (shape X).2)
    by (by rewrite HX, HWt).
  pose proof (corr2d_fits s lx _ X Wt Hx Hw (proj1 Hfit) (proj2 Hfit)) as Hrun1.
  set (ly := fresh (dom s)) in *.
  set (s1 := <[ly := Grid (corr2d_value X Wt)]> s) in *.
  assert (Hframe1 : ∀ l o, s !! l = Some o → s1 !! l = Some o).
  { intros l o Hl. unfold s1.
    rewrite lookup_insert_ne; [done | symmetry; by eapply fresh_ne]. }
  assert (Hrun2 : np_add ly (bias self) s1 =
                  Ok (fresh (dom s1),
                      <[fresh (dom s1) :=
                          Grid (add_to_every_cell (corr2d_value X Wt) b)]> s1)).
  { eapply np_add_ok; [apply lookup_insert_eq | by apply Hframe1 |].
    apply obj_add_grid_vec1, wf_tabulate. }
  assert (Hframe : ∀ l o, s !! l = Some o →
            <[fresh (dom s1) :=
                Grid (add_to_every_cell (corr2d_value X Wt) b)]> s1 !! l = Some o).
  { intros l o Hl. rewrite lookup_insert_ne; [by apply Hframe1|].
    symmetry. eapply fresh_ne. by apply Hframe1. }
  eexists _, _. split_and!.
  - unfold forward. rewrite (bind_ok _ _ _ _ _ Hrun1). exact Hrun2.
  - destruct (s !! fresh (dom s1)) as [o|] eqn:Hlo; [|done].
    apply Hframe1 in Hlo. by rewrite fresh_lookup in Hlo.
  - exact Hframe.
  - split; [by apply Hframe | split; [done | by apply Hframe]].
Qed.

End Corr2dStructure.

(** ** The further properties at concrete inputs *)

Lemma corr2d_raises_iff_witness :
  corr2d ref_crop ref_K4 example_store2 = Raise NegativeDimensions ↔
  (shape (slice X3 1 3 1 3)).1 + 1 < (shape K4).1 ∨
  (shape (slice X3 1 3 1 3)).2 + 1 < (shape K4).2.
Proof.
  apply (corr2d_raises_iff example_store2 ref_crop ref_K4 (slice X3 1 3 1 3) K4);
    reflexivity.
Defined.

Lemma corr2d_only_shape_error_witness : NegativeDimensions = NegativeDimensions.
Proof.
  apply (corr2d_only_shape_error example_store2 ref_crop ref_K4
           (slice X3 1 3 1 3) K4 NegativeDimensions);
    [reflexivity | reflexivity | vm_compute; reflexivity].
Defined.

Lemma corr2d_receptive_field_witness :
  ∃ Y Y' v, returns (corr2d ref_X ref_K) example_store2 Y ∧
            returns (corr2d ref_X' ref_K) example_store2 Y' ∧
            getitem Y 0 0 = Ok v ∧ getitem Y' 0 0 = Ok v.
Proof.
  apply (corr2d_receptive_field example_store2 ref_X ref_X' ref_K X3 X3' K2 0 0);
    [reflexivity | reflexivity | reflexivity
    | simpl; lia | simpl; lia | simpl; lia | simpl; lia |].
  intros [|[|p]] [|[|q]] Hp Hq; simpl in Hp, Hq; try lia; reflexivity.
Defined.

Lemma corr2d_crop_witness :
  ∃ Y, returns (corr2d ref_X ref_K) example_store2 Y ∧
       returns (corr2d ref_crop ref_K) example_store2
               (slice Y 1 (shape Y).1 1 (shape Y).2).
Proof.
  apply (corr2d_crop example_store2 ref_X ref_crop ref_K X3 K2 1 1);
    [reflexivity | reflexivity | reflexivity | simpl; lia | simpl; lia].
Defined.

Lemma corr2d_twice_shape_witness :
  ∃ Z, returns (corr2d_twice ref_X ref_K ref_K') example_store Z ∧
       has_shape Z (3 + 2 - 2 - 2, 3 + 2 - 2 - 2).
Proof.
  apply (corr2d_twice_shape example_store ref_X ref_K ref_K' X3 K2 K2' 3 3 2 2 2 2);
    [reflexivity | reflexivity | reflexivity
    | reflexivity | reflexivity | reflexivity | lia | lia].
Defined.

Lemma forward_preserves_store_witness :
  ∃ lo s', forward example_layer ref_X example_store = Ok (lo, s') ∧
           example_store !! lo = None ∧
           (∀ l o, example_store !! l = Some o → s' !! l = Some o) ∧
           Conv2D_params example_layer (2, 2) K2 5%Z s'.
Proof.
  apply (forward_preserves_store example_store example_layer ref_X X3 K2 5%Z 3 3 2 2);
    [reflexivity
    | split; [reflexivity | split; [split; reflexivity | reflexivity]]
    | split; reflexivity | lia | lia].
Defined.

(** ** Grids mapped cell by cell *)

Section MapGrid.
Context {A B : Type} {SA : Scalar A} {SB : Scalar B}.
Variable g : A → B.

Lemma lookup2_map_grid (a : ndarray A) i j :
  lookup2 (map_grid g a) i j = g <$> lookup2 a i j.
Proof.
  unfold lookup2, map_grid; simpl. rewrite list_lookup_fmap.
  destruct (rows a !! i); simpl; [|done]. by rewrite list_lookup_fmap.
Qed.

Lemma cell_map_grid (a : ndarray A) i j :
  g f0 = f0 → cell (map_grid g a) i j = g (cell a i j).
Proof.
  intros Hg. unfold cell. rewrite lookup2_map_grid.
  by destruct (lookup2 a i j).
Qed.

Lemma map_grid_tabulate r c (f : nat → nat → A) :
  map_grid g (tabulate r c f) = tabulate r c (λ i j, g (f i j)).
Proof.
  unfold map_grid, tabulate; simpl. f_equal.
  rewrite <- list_fmap_compose. apply list_fmap_ext; intros i p _. simpl.
  by rewrite <- list_fmap_compose.
Qed.

End MapGrid.

Section FlatSums.
Context {F : Type} {SF : Scalar F}.

(** The cells of a table, row by row. *)
Lemma tabulate_flat h w (f : nat → nat → F) :
  concat (rows (tabulate h w f)) = (λ pq, f pq.1 pq.2) <$> index_pairs h w.
Proof.
  unfold tabulate, index_pairs. cbn [rows].
  induction (seq 0 h) as [|p ps IH]; [done|].
  rewrite !fmap_cons. cbn [concat]. rewrite fmap_app, IH. f_equal.
  by rewrite <- list_fmap_compose.
Qed.

Lemma window_value_flat (X K : ndarray F) i j :
  window_value X K i j =
  sum_list ((λ pq, fmul (cell X (i + pq.1) (j + pq.2)) (cell K pq.1 pq.2))
              <$> index_pairs (shape K).1 (shape K).2).
Proof. unfold window_value, sum. by rewrite tabulate_flat. Qed.


End FlatSums.

(** ** Integer sums *)

Section IntegerSums.
Implicit Types (l : list (nat * nat)) (g : nat * nat → Z).
Local Open Scope Z_scope.


Lemma sum_list_Z_le l g1 g2 :
  (∀ pq, g1 pq ≤ g2 pq) → sum_list (g1 <$> l) ≤ sum_list (g2 <$> l).
Proof.
  intros Hle. unfold sum_list. induction l as [|pq l IH]; [done|].
  rewrite !fmap_cons. cbn [foldr].
  change (@fadd Z Z_scalar) with Z.add in *. specialize (Hle pq). lia.
Qed.

Lemma sum_list_Z_abs l g :
  Z.abs (sum_list (g <$> l)) ≤ sum_list ((λ pq, Z.abs (g pq)) <$> l).
Proof.
  unfold sum_list. induction l as [|pq l IH]; [done|].
  rewrite !fmap_cons. cbn [foldr].
  change (@fadd Z Z_scalar) with Z.add in *. lia.
Qed.

Lemma within_cell (Bd : Z) (a : ndarray Z) i j :
  0 ≤ Bd → within Bd a = true → Z.abs (cell a i j) ≤ Bd.
Proof.
  intros HB Hw. unfold cell, lookup2.
  destruct (rows a !! i) as [r|] eqn:Hi; simpl; [|done].
  destruct (r !! j) as [x|] eqn:Hj; simpl; [|done].
  unfold within in Hw. rewrite forallb_forall in Hw.
  assert (Hr : forallb (λ x, Z.abs x <=? Bd) r = true).
  { apply Hw, list_elem_of_In, list_elem_of_lookup. eauto. }
  rewrite forallb_forall in Hr. apply Z.leb_le, Hr.
  apply list_elem_of_In, list_elem_of_lookup. eauto.
Qed.

End IntegerSums.

(** ** Windows of integer grids *)

Section IntegerWindows.
Implicit Types (X K A : ndarray Z).
Local Open Scope Z_scope.

Lemma cell_abs_grid A i j : cell (abs_grid A) i j = Z.abs (cell A i j).
Proof. by apply (cell_map_grid Z.abs). Qed.

Lemma cell_tabulate_Z r c (f : nat → nat → Z) i j :
  cell (tabulate r c f) i j = if decide (i < r ∧ j < c)%nat then f i j else 0.
Proof.
  unfold cell. case_decide as Hij.
  - by rewrite lookup2_tabulate by tauto.
  - rewrite lookup2_tabulate_None; [done | lia].
Qed.



(** The window's sum is at most the window's sum of absolute values. *)
Lemma window_value_abs_le X K i j :
  Z.abs (window_value X K i j) ≤ window_value (abs_grid X) (abs_grid K) i j.
Proof.
  rewrite !window_value_flat.
  change (shape (abs_grid K)) with (shape K).
  etrans; [apply sum_list_Z_abs|].
  apply sum_list_Z_le. intros pq. rewrite !cell_abs_grid.
  change (@fmul Z Z_scalar) with Z.mul. by rewrite Z.abs_mul.
Qed.




Lemma window_mass_nonneg X K i j :
  0 ≤ window_value (abs_grid X) (abs_grid K) i j.
Proof. pose proof (window_value_abs_le X K i j). lia. Qed.

End IntegerWindows.

(** ** Elements that hold bounded integers exactly *)

(** An element type may compute sums and products of integers without
    rounding as long as they stay within a bound [B].  [φ z] is the element
    of the integer [z]; [R a z] says that [a], a product, holds [z].  On
    such integers [corr2d] computes what integer arithmetic gives. *)
Section ExactRange.
Context {F : Type} {SF : Scalar F}.
Variables (φ : Z → F) (R : F → Z → Prop) (B : Z).
Hypothesis B_nonneg : (0 ≤ B)%Z.
Hypothesis φ_zero : φ 0%Z = f0.
Hypothesis R_φ : ∀ x, R (φ x) x.
Hypothesis mul_exact : ∀ x y : Z,
  (Z.abs x ≤ B)%Z → (Z.abs y ≤ B)%Z → (Z.abs (x * y) ≤ B)%Z →
  R (fmul (φ x) (φ y)) (x * y)%Z.
Hypothesis add_exact : ∀ (a : F) (x y : Z),
  R a x → (Z.abs x ≤ B)%Z → (Z.abs y ≤ B)%Z → (Z.abs (x + y) ≤ B)%Z →
  fadd a (φ y) = φ (x + y)%Z.
Implicit Types (X K : ndarray Z) (s : heap F).
Local Open Scope Z_scope.

Lemma sum_list_exact (l : list (nat * nat)) (x k : nat * nat → Z) :
  (∀ pq, Z.abs (x pq) ≤ B) → (∀ pq, Z.abs (k pq) ≤ B) →
  sum_list ((λ pq, Z.abs (x pq * k pq)) <$> l) ≤ B →
  sum_list ((λ pq, fmul (φ (x pq)) (φ (k pq))) <$> l) =
  φ (sum_list ((λ pq, x pq * k pq) <$> l)).
Proof.
  intros Hx Hk. induction l as [|pq l IH]; intros Hmass.
  - symmetry. exact φ_zero.
  - rewrite !fmap_cons in *. unfold sum_list in *. cbn [foldr] in *.
    pose proof (sum_list_Z_abs l (λ pq, x pq * k pq)) as Habs.
    unfold sum_list in Habs.
    change (@fadd Z Z_scalar) with Z.add in *.
    rewrite IH by lia.
    apply add_exact; [apply mul_exact; auto; lia | lia | lia | lia].
Qed.

(** On grids within the bound, the window's sum is the element of the
    integer window sum, provided the sum of absolute values stays within
    the bound. *)
Lemma window_value_exact X K i j :
  within B X = true → within B K = true →
  window_value (abs_grid X) (abs_grid K) i j ≤ B →
  window_value (map_grid φ X) (map_grid φ K) i j = φ (window_value X K i j).
Proof.
  intros HX HK Hmass. rewrite !window_value_flat in *.
  change (shape (map_grid φ K)) with (shape K).
  change (shape (abs_grid K)) with (shape K) in Hmass.
  rewrite (list_fmap_ext _
    (λ pq, fmul (φ (cell X (i + pq.1) (j + pq.2))) (φ (cell K pq.1 pq.2))))
    by (intros _ pq _; by rewrite !cell_map_grid).
  apply (sum_list_exact _ (λ pq, cell X (i + pq.1) (j + pq.2))
                          (λ pq, cell K pq.1 pq.2)).
  - intros pq. by apply within_cell.
  - intros pq. by apply within_cell.
  - etrans; [|exact Hmass]. apply sum_list_Z_le. intros pq.
    rewrite !cell_abs_grid. change (@fmul Z Z_scalar) with Z.mul.
    by rewrite Z.abs_mul.
Qed.

Lemma corr2d_value_exact X K :
  within B X = true → within B K = true →
  (∀ i j, (i < (shape X).1 - (shape K).1 + 1)%nat →
          (j < (shape X).2 - (shape K).2 + 1)%nat →
          window_value (abs_grid X) (abs_grid K) i j ≤ B) →
  corr2d_value (map_grid φ X) (map_grid φ K) = map_grid φ (corr2d_value X K).
Proof.
  intros HX HK Hmass. unfold corr2d_value.
  change (shape (map_grid φ X)) with (shape X).
  change (shape (map_grid φ K)) with (shape K).
  rewrite map_grid_tabulate. apply tabulate_ext. intros i j Hi Hj.
  apply window_value_exact; auto.
Qed.



End ExactRange.

(** ** Single precision holds small integers exactly *)

Lemma f32_eqb_eq (a b : float32) : f32_eqb a b = true → a = b.
Proof.
  destruct a as [sa|sa| |sa ma ea], b as [sb|sb| |sb mb eb]; simpl; try done.
  - by intros ->%Bool.eqb_prop.
  - by intros ->%Bool.eqb_prop.
  - rewrite !andb_true_iff.
    by intros [[->%Bool.eqb_prop ->%Pos.eqb_eq] ->%Z.eqb_eq].
Qed.

Lemma f32_holdsb_holds (f : float32) (z : Z) :
  f32_holdsb f z = true → f32_holds f z.
Proof.
  unfold f32_holdsb, f32_holds. rewrite orb_true_iff, andb_true_iff.
  intros [Hf | [Hz Hf]].
  - left. by apply f32_eqb_eq.
  - right. split; [by apply Z.eqb_eq | by apply f32_eqb_eq].
Qed.

Lemma zrange_In (B z : Z) :
  (Z.abs z ≤ B)%Z → In (z, f32_of_Z z) (zrange B).
Proof.
  intros Hz. apply list_elem_of_In. unfold zrange.
  apply list_elem_of_fmap. exists (Z.to_nat (z + B)). split.
  - simpl. replace (Z.of_nat (Z.to_nat (z + B)) - B)%Z with z by lia. done.
  - apply elem_of_seq. lia.
Qed.

(** What the two checks establish, for any bound they pass at. *)
Lemma check_add32_sound (B : Z) (a : float32) (x y : Z) :
  check_add32 B = true →
  f32_holds a x →
  (Z.abs x ≤ B)%Z → (Z.abs y ≤ B)%Z → (Z.abs (x + y) ≤ B)%Z →
  f32_add a (f32_of_Z y) = f32_of_Z (x + y).
Proof.
  intros Hc Ha Hx Hy Hxy. unfold check_add32 in Hc.
  rewrite forallb_forall in Hc.
  specialize (Hc _ (zrange_In _ _ Hy)). cbv beta in Hc; cbn [fst snd] in Hc.
  apply andb_true_iff in Hc as [Hnz Hc].
  destruct Ha as [-> | [-> ->]].
  - rewrite forallb_forall in Hc.
    specialize (Hc _ (zrange_In _ _ Hx)). cbv beta in Hc; cbn [fst snd] in Hc.
    apply Z.leb_le in Hxy. rewrite Hxy in Hc. by apply f32_eqb_eq.
  - by apply f32_eqb_eq.
Qed.

Lemma check_mul32_sound (B : Z) (x y : Z) :
  check_mul32 B = true →
  (Z.abs x ≤ B)%Z → (Z.abs y ≤ B)%Z → (Z.abs (x * y) ≤ B)%Z →
  f32_holds (f32_mul (f32_of_Z x) (f32_of_Z y)) (x * y).
Proof.
  intros Hc Hx Hy Hxy. unfold check_mul32 in Hc.
  rewrite forallb_forall in Hc.
  specialize (Hc _ (zrange_In _ _ Hx)). cbv beta in Hc; cbn [fst snd] in Hc.
  rewrite forallb_forall in Hc.
  specialize (Hc _ (zrange_In _ _ Hy)). cbv beta in Hc; cbn [fst snd] in Hc.
  apply Z.leb_le in Hxy. rewrite Hxy in Hc. by apply f32_holdsb_holds.
Qed.

Lemma check_add32_exact_bound : check_add32 exact_bound = true.
Proof. vm_compute. reflexivity. Qed.

Lemma check_mul32_exact_bound : check_mul32 exact_bound = true.
Proof. vm_compute. reflexivity. Qed.

(** A sum that stays within the bound is not rounded. *)
Lemma f32_add_exact (a : float32) (x y : Z) :
  f32_holds a x →
  (Z.abs x ≤ exact_bound)%Z → (Z.abs y ≤ exact_bound)%Z →
  (Z.abs (x + y) ≤ exact_bound)%Z →
  f32_add a (f32_of_Z y) = f32_of_Z (x + y).
Proof. exact (check_add32_sound exact_bound a x y check_add32_exact_bound). Qed.

(** A product that stays within the bound is not rounded; it can be the
    negative zero. *)
Lemma f32_mul_exact (x y : Z) :
  (Z.abs x ≤ exact_bound)%Z → (Z.abs y ≤ exact_bound)%Z →
  (Z.abs (x * y) ≤ exact_bound)%Z →
  f32_holds (f32_mul (f32_of_Z x) (f32_of_Z y)) (x * y).
Proof. exact (check_mul32_sound exact_bound x y check_mul32_exact_bound). Qed.


(** ** Linearity in the kernel, in single precision *)



(** In single precision the sum of 16777216 and 1 is rounded: [corr2d]
    returns 16777216, as the contract's formula says once its additions
    are those of the element type. *)
Example corr2d_rounds :
  run_array rounding_cell =
  Ok {| shape := (1, 1); rows := [[f32_of_Z 16777216]] |}.
Proof. vm_compute. reflexivity. Qed.

Lemma corr2d_cross_correlation_witness :
  ∃ Y, returns (corr2d ref_X ref_K) example_store32 Y ∧
       ∀ i j, i < 3 - 2 + 1 → j < 3 - 2 + 1 →
              getitem Y i j =
              Ok (cross_correlation (map_grid f32_of_Z X3) (map_grid f32_of_Z K2)
                                    2 2 i j).
Proof.
  apply (corr2d_cross_correlation example_store32 ref_X ref_K
           (map_grid f32_of_Z X3) (map_grid f32_of_Z K2) 3 3 2 2);
    [vm_compute; reflexivity | vm_compute; reflexivity
    | split; reflexivity | split; reflexivity | lia | lia].
Defined.


(** ** Exactness on small integers, in single precision *)

(** X11.  On single-precision arrays that hold integers, [corr2d] computes
    without rounding whenever the cells of [X] and [K] and the window sums
    [Σ_{p,q} |X[i+p][j+q]| * |K[p][q]|] are all at most 255: the result
    holds, cell for cell, the integer sums
    [Σ_{p,q} X[i+p][j+q] * K[p][q]]. *)
Theorem corr2d_exact_f32 (s : heap float32) lx lk (X K : ndarray Z)
    (H W kh kw : nat) :
  s !! lx = Some (Grid (map_grid f32_of_Z X)) →
  s !! lk = Some (Grid (map_grid f32_of_Z K)) →
  has_shape X (H, W) → has_shape K (kh, kw) →
  kh ≤ H → kw ≤ W →
  within exact_bound X = true → within exact_bound K = true →
  within exact_bound (corr2d_value (abs_grid X) (abs_grid K)) = true →
  returns (corr2d lx lk) s (map_grid f32_of_Z (corr2d_value X K)).
Proof.
  intros Hx Hk [_ HX] [_ HK] Hh Hw HbX HbK Hbm.
  rewrite <- (corr2d_value_exact f32_of_Z f32_holds exact_bound);
    try done; try apply f32_mul_exact; try apply f32_add_exact.
  - apply corr2d_returns; try done.
    + change (shape (map_grid f32_of_Z K)) with (shape K).
      change (shape (map_grid f32_of_Z X)) with (shape X). by rewrite HX, HK.
    + change (shape (map_grid f32_of_Z K)) with (shape K).
      change (shape (map_grid f32_of_Z X)) with (shape X). by rewrite HX, HK.
  - intros i j Hi Hj.
    assert (HB : (0 ≤ exact_bound)%Z) by done.
    pose proof (within_cell exact_bound _ i j HB Hbm) as Hc.
    unfold corr2d_value in Hc. rewrite cell_tabulate_Z in Hc.
    change (shape (abs_grid X)) with (shape X) in Hc.
    change (shape (abs_grid K)) with (shape K) in Hc.
    rewrite decide_True in Hc by done.
    pose proof (window_mass_nonneg X K i j). lia.
Qed.

(** X10.  With the notebook's kernel [[[1, -1]]], on a single-precision
    array that holds integers with [|X[i][j]| + |X[i][j+1]| ≤ 255]
    throughout, [corr2d] computes the horizontal finite difference: the
    output has shape (H, W − 1) and [Y[i][j]] holds
    [X[i][j] − X[i][j+1]]. *)
Theorem corr2d_finite_difference_f32 (s : heap float32) lx lk
    (X : ndarray Z) (H W : nat) :
  s !! lx = Some (Grid (map_grid f32_of_Z X)) →
  s !! lk = Some (Grid (map_grid f32_of_Z edge_kernel)) →
  has_shape X (H, W) → 1 ≤ H → 2 ≤ W →
  within exact_bound X = true →
  within exact_bound (corr2d_value (abs_grid X) (abs_grid edge_kernel)) = true →
  ∃ Y, returns (corr2d lx lk) s Y ∧ has_shape Y (H, W - 1) ∧
       ∀ i j, i < H → j < W - 1 →
         getitem Y i j = Ok (f32_of_Z (cell X i j - cell X i (j + 1))).
Proof.
  intros Hx Hk HX HH HW HbX Hbm.
  exists (map_grid f32_of_Z (corr2d_value X edge_kernel)).
  destruct HX as [HwfX HX]. split; [|split; [split|]].
  - apply (corr2d_exact_f32 s lx lk X edge_kernel H W 1 2); done.
  - unfold corr2d_value. rewrite map_grid_tabulate. apply wf_tabulate.
  - change (shape (map_grid f32_of_Z (corr2d_value X edge_kernel)))
      with (shape (corr2d_value X edge_kernel)).
    rewrite corr2d_value_shape, HX. simpl. f_equal; lia.
  - intros i j Hi Hj. unfold getitem.
    rewrite lookup2_map_grid. unfold corr2d_value.
    rewrite lookup2_tabulate by (rewrite HX; simpl; lia).
    cbn [fmap option_fmap option_map]. do 2 f_equal.
    unfold window_value, sum, sum_list. simpl.
    rewrite !Nat.add_0_r.
    change (cell edge_kernel 0 0) with 1%Z.
    change (cell edge_kernel 0 1) with (-1)%Z. lia.
Qed.

Lemma corr2d_exact_f32_witness :
  returns (corr2d ref_X ref_K) example_store32
          (map_grid f32_of_Z (corr2d_value X3 K2)).
Proof.
  apply (corr2d_exact_f32 example_store32 ref_X ref_K X3 K2 3 3 2 2);
    [vm_compute; reflexivity | vm_compute; reflexivity
    | split; reflexivity | split; reflexivity | lia | lia
    | reflexivity | reflexivity | reflexivity].
Defined.

Lemma corr2d_finite_difference_f32_witness :
  ∃ Y, returns (corr2d ref_X ref_edge) (map_obj f32_of_Z <$> example_store2) Y ∧
       has_shape Y (3, 3 - 1) ∧
       ∀ i j, i < 3 → j < 3 - 1 →
         getitem Y i j = Ok (f32_of_Z (cell X3 i j - cell X3 i (j + 1))).
Proof.
  apply (corr2d_finite_difference_f32 (map_obj f32_of_Z <$> example_store2)
           ref_X ref_edge X3 3 3);
    [vm_compute; reflexivity | vm_compute; reflexivity
    | split; reflexivity | lia | lia | reflexivity | reflexivity].
Defined.
